(** * sigslot11: a shallow embedding of [Connectable], [Connection] and [Signal]

    Objects live at addresses.  A world maps the address of every live
    [Connectable] to its [m_senders] set and the address of every live
    [Signal] to its [m_connected_slots] list.  A member call through the
    address of an object that is not live is undefined behaviour in C++; here
    it is the fault [Dangling].  A handler call [(m_pobject->*m_pmemfun)(args)]
    is recorded in the world's call log, in the order the calls are made.
    The lists hold the records themselves: the storage of a record ([new] in
    [Connect], [Clone] and [Duplicate], [delete] in [SlotDisconnect] and
    [DisconnectAll]) has no counterpart here. *)

From stdpp Require Import gmap list sorting.

(** Addresses of objects, and pointers to member functions, as numbers. *)
Abbreviation addr := positive (only parsing).
Abbreviation memfun := nat (only parsing).

(** ** Connection<Dest, Args...> *)

Record Connection : Type := mkConnection {
  m_pobject : addr;
  m_pmemfun : memfun
}.

#[global] Instance Connection_eq_dec : EqDecision Connection.
Proof. solve_decision. Defined.

Definition GetDest (c : Connection) : addr := m_pobject c.

Definition Clone (c : Connection) : Connection :=
  mkConnection (m_pobject c) (m_pmemfun c).

Definition Duplicate (c : Connection) (pnewdest : addr) : Connection :=
  mkConnection pnewdest (m_pmemfun c).

(** ** Faults and the result monad *)

Inductive fault : Type :=
| Dangling (p : addr)     (* member call on an object that is not live *)
| Occupied (p : addr)     (* construction at an address already in use *)
| Diverges.               (* a loop that never reaches its end *)

Inductive res (A : Type) : Type :=
| Ok (a : A)
| Fail (f : fault).
Arguments Ok {A} a.
Arguments Fail {A} f.

#[global] Instance res_ret : MRet res := @Ok.
#[global] Instance res_bind : MBind res := fun A B f m =>
  match m with
  | Ok a => f a
  | Fail e => Fail e
  end.

#[global] Instance fault_eq_dec : EqDecision fault.
Proof. solve_decision. Defined.

(** A [for] loop over a container whose body is a member call. *)
Fixpoint for_each {A S : Type} (body : A → S → res S) (l : list A) (s : S) : res S :=
  match l with
  | [] => Ok s
  | x :: l' => s' ← body x s; for_each body l' s'
  end.

(** [std::set<SignalInterface *>] is iterated in ascending address order. *)
Definition sender_order (s : gset addr) : list addr :=
  merge_sort Pos.le (elements s).

(** ** The list loops of [Signal], on the list alone *)

(** [Signal::SlotDisconnect]: the [while] loop erasing every match. *)
Fixpoint SlotDisconnect_loop (pslot : addr) (l : list Connection) : list Connection :=
  match l with
  | [] => []
  | c :: l' =>
      if decide (GetDest c = pslot) then SlotDisconnect_loop pslot l'
      else c :: SlotDisconnect_loop pslot l'
  end.

(** [Signal::Disconnect]: the [for] loop that erases at the first match and
    breaks.  [None] when the loop reaches [end()] without a match. *)
Fixpoint Disconnect_loop (pslot : addr) (l : list Connection) : option (list Connection) :=
  match l with
  | [] => None
  | c :: l' =>
      if decide (GetDest c ≠ pslot) then (c ::.) <$> Disconnect_loop pslot l'
      else Some l'
  end.

(** [Signal::SlotDuplicate]: the range-[for] over the [std::list] that is
    being appended to.  [push_back] keeps the iterators of a [std::list]
    valid and [end()] is the list's sentinel, so the loop goes on into the
    records it has appended: [pending] is what lies between the iterator and
    [end()], [visited] what lies before the iterator. *)
Fixpoint SlotDuplicate_loop (fuel : nat) (oldtarget newtarget : addr)
    (visited pending : list Connection) : option (list Connection) :=
  match fuel with
  | 0 => None
  | S fuel' =>
      match pending with
      | [] => Some visited
      | slot :: rest =>
          if decide (GetDest slot ≠ oldtarget)
          then SlotDuplicate_loop fuel' oldtarget newtarget (visited ++ [slot]) rest
          else SlotDuplicate_loop fuel' oldtarget newtarget (visited ++ [slot])
                 (rest ++ [Duplicate slot newtarget])
      end
  end.

(** Steps granted to the loop above: one per record, one more per record it
    can append, one to see [end()].  [SlotDuplicate_loop_adequate] shows that
    a run that stops at all stops within them. *)
Definition SlotDuplicate_fuel (l : list Connection) : nat := S (2 * length l).

Section World.

Context {Args : Type}.

(** One handler invocation [(obj->*fn)(args)]. *)
Record Call : Type := mkCall {
  call_obj : addr;
  call_fun : memfun;
  call_args : Args
}.

Record World : Type := mkWorld {
  connectables : gmap addr (gset addr);      (* live Connectable -> m_senders *)
  signals : gmap addr (list Connection);     (* live Signal -> m_connected_slots *)
  calls : list Call                          (* handler invocations so far *)
}.

Definition set_senders (this : addr) (s : gset addr) (w : World) : World :=
  mkWorld (<[this := s]> (connectables w)) (signals w) (calls w).

Definition set_slots (this : addr) (l : list Connection) (w : World) : World :=
  mkWorld (connectables w) (<[this := l]> (signals w)) (calls w).

Definition senders_of (this : addr) (w : World) : res (gset addr) :=
  match connectables w !! this with
  | Some s => Ok s
  | None => Fail (Dangling this)
  end.

Definition slots_of (this : addr) (w : World) : res (list Connection) :=
  match signals w !! this with
  | Some l => Ok l
  | None => Fail (Dangling this)
  end.

(** Reading the two containers of an object, empty when it is not live. *)
Definition m_senders (w : World) (r : addr) : gset addr :=
  default ∅ (connectables w !! r).

Definition m_connected_slots (w : World) (e : addr) : list Connection :=
  default [] (signals w !! e).

(** ** Connectable *)

Definition SignalConnect (this sender : addr) (w : World) : res World :=
  s ← senders_of this w;
  Ok (set_senders this ({[sender]} ∪ s) w).

Definition SignalDisconnect (this sender : addr) (w : World) : res World :=
  s ← senders_of this w;
  Ok (set_senders this (s ∖ {[sender]}) w).

(** ** Signal<Args...> *)

Definition SlotDisconnect (this pslot : addr) (w : World) : res World :=
  l ← slots_of this w;
  Ok (set_slots this (SlotDisconnect_loop pslot l) w).

Definition SlotDuplicate (this oldtarget newtarget : addr) (w : World) : res World :=
  l ← slots_of this w;
  match SlotDuplicate_loop (SlotDuplicate_fuel l) oldtarget newtarget [] l with
  | Some l' => Ok (set_slots this l' w)
  | None => Fail Diverges
  end.

Definition Disconnect (this pslot : addr) (w : World) : res World :=
  l ← slots_of this w;
  match Disconnect_loop pslot l with
  | Some l' => SignalDisconnect pslot this (set_slots this l' w)
  | None => Ok w
  end.

Definition Connect (this pclass : addr) (pmemfun : memfun) (w : World) : res World :=
  l ← slots_of this w;
  SignalConnect pclass this (set_slots this (l ++ [mkConnection pclass pmemfun]) w).

(** [Connection::Emit]: the member call through [m_pobject]. *)
Definition Connection_Emit (args : Args) (slot : Connection) (w : World) : res World :=
  match connectables w !! m_pobject slot with
  | Some _ =>
      Ok (mkWorld (connectables w) (signals w)
            (calls w ++ [mkCall (m_pobject slot) (m_pmemfun slot) args]))
  | None => Fail (Dangling (m_pobject slot))
  end.

Definition Emit (this : addr) (args : Args) (w : World) : res World :=
  l ← slots_of this w;
  for_each (Connection_Emit args) l w.

Definition Signal_DisconnectAll (this : addr) (w : World) : res World :=
  l ← slots_of this w;
  w' ← for_each (fun slot => SignalDisconnect (GetDest slot) this) l w;
  Ok (set_slots this [] w').

(** [Signal()] *)
Definition Signal_new (this : addr) (w : World) : res World :=
  match signals w !! this with
  | Some _ => Fail (Occupied this)
  | None => Ok (set_slots this [] w)
  end.

(** [Signal(const Signal &src)] *)
Definition Signal_copy (this src : addr) (w : World) : res World :=
  w0 ← Signal_new this w;
  lsrc ← slots_of src w0;
  for_each (fun slot w1 =>
      w2 ← SignalConnect (GetDest slot) this w1;
      l ← slots_of this w2;
      Ok (set_slots this (l ++ [Clone slot]) w2))
    lsrc w0.

(** [~Signal()] *)
Definition Signal_delete (this : addr) (w : World) : res World :=
  w' ← Signal_DisconnectAll this w;
  Ok (mkWorld (connectables w') (delete this (signals w')) (calls w')).

(** ** Connectable, the parts that call into the signals *)

Definition Connectable_DisconnectAll (this : addr) (w : World) : res World :=
  s ← senders_of this w;
  w' ← for_each (fun sender => SlotDisconnect sender this) (sender_order s) w;
  Ok (set_senders this ∅ w').

(** [Connectable()] *)
Definition Connectable_new (this : addr) (w : World) : res World :=
  match connectables w !! this with
  | Some _ => Fail (Occupied this)
  | None => Ok (set_senders this ∅ w)
  end.

(** [Connectable(Connectable const &src)] *)
Definition Connectable_copy (this src : addr) (w : World) : res World :=
  w0 ← Connectable_new this w;
  s ← senders_of src w0;
  for_each (fun sender w1 =>
      w2 ← SlotDuplicate sender src this w1;
      SignalConnect this sender w2)
    (sender_order s) w0.

(** [~Connectable()] *)
Definition Connectable_delete (this : addr) (w : World) : res World :=
  w' ← Connectable_DisconnectAll this w;
  Ok (mkWorld (delete this (connectables w')) (signals w') (calls w')).

End World.

Arguments Call : clear implicits.
Arguments World : clear implicits.

(** ** Vocabulary of the statements *)

(** The records of a list whose target is [p], and the others, in list order. *)
Definition records_to (p : addr) (l : list Connection) : list Connection :=
  filter (fun c => GetDest c = p) l.

Definition records_not_to (p : addr) (l : list Connection) : list Connection :=
  filter (fun c => GetDest c ≠ p) l.

(** What [SlotDuplicate] leaves when its loop ends. *)
Definition duplicated (oldtarget newtarget : addr) (l : list Connection) : list Connection :=
  l ++ map (fun c => Duplicate c newtarget) (records_to oldtarget l).

Section Vocabulary.

Context {Args : Type}.
Implicit Types w : World Args.

(** The handler invocations one pass of [Emit] over [l] makes. *)
Definition invocations (args : Args) (l : list Connection) : list (Call Args) :=
  map (fun c => mkCall (m_pobject c) (m_pmemfun c) args) l.

Definition live_signal w (e : addr) : Prop := is_Some (signals w !! e).
Definition live_connectable w (r : addr) : Prop := is_Some (connectables w !! r).

(** Every record of [e] points at a live receiver. *)
Definition targets_live w (e : addr) : Prop :=
  Forall (fun c => live_connectable w (GetDest c)) (m_connected_slots w e).

(** Every emitter in [r]'s registry is live. *)
Definition senders_live w (r : addr) : Prop :=
  set_Forall (live_signal w) (m_senders w r).

(** What [Connect] establishes: a record in the emitter, and the emitter in
    the receiver's registry. *)
Definition connected w (e r : addr) : Prop :=
  e ∈ m_senders w r ∧ Exists (fun c => GetDest c = r) (m_connected_slots w e).

(** The spec's emitter invariant: the target of every record lists the
    emitter that holds it. *)
Definition bookkeeping w : Prop :=
  ∀ e c, c ∈ m_connected_slots w e → e ∈ m_senders w (GetDest c).

End Vocabulary.

(** ** Programs over the public interface *)

Section Programs.

Context {Args : Type}.
Implicit Types w : World Args.

(** [void operator()(Args... args)] *)
Definition Signal_call (this : addr) (args : Args) (w : World Args) : res (World Args) :=
  Emit this args w.

(** The counterpart of [bookkeeping] on the receiver's side: every emitter
    in a senders set holds a record to that receiver. *)
Definition registered w : Prop :=
  ∀ r e, e ∈ m_senders w r → Exists (fun c => GetDest c = r) (m_connected_slots w e).

Definition consistent w : Prop := bookkeeping w ∧ registered w.

(** One call a user of the two classes can make. *)
Inductive call : Type :=
| NewSignal (e : addr)
| NewConnectable (r : addr)
| CopySignal (e2 e : addr)
| CopyConnectable (r2 r : addr)
| DeleteSignal (e : addr)
| DeleteConnectable (r : addr)
| CallConnect (e r : addr) (h : memfun)
| CallDisconnect (e r : addr)
| CallEmit (e : addr) (args : Args)
| CallOperator (e : addr) (args : Args)
| CallSignalDisconnectAll (e : addr)
| CallConnectableDisconnectAll (r : addr).

Definition exec (c : call) (w : World Args) : res (World Args) :=
  match c with
  | NewSignal e => Signal_new e w
  | NewConnectable r => Connectable_new r w
  | CopySignal e2 e => Signal_copy e2 e w
  | CopyConnectable r2 r => Connectable_copy r2 r w
  | DeleteSignal e => Signal_delete e w
  | DeleteConnectable r => Connectable_delete r w
  | CallConnect e r h => Connect e r h w
  | CallDisconnect e r => Disconnect e r w
  | CallEmit e args => Emit e args w
  | CallOperator e args => Signal_call e args w
  | CallSignalDisconnectAll e => Signal_DisconnectAll e w
  | CallConnectableDisconnectAll r => Connectable_DisconnectAll r w
  end.

(** The calls of a program that uses live objects, builds at free addresses
    and does not [Disconnect] a receiver an emitter is connected to more than
    once. *)
Definition permitted w (c : call) : Prop :=
  match c with
  | NewSignal e => signals w !! e = None
  | NewConnectable r => connectables w !! r = None
  | CopySignal e2 e => live_signal w e ∧ signals w !! e2 = None
  | CopyConnectable r2 r => live_connectable w r ∧ connectables w !! r2 = None
  | DeleteSignal e => live_signal w e
  | DeleteConnectable r => live_connectable w r
  | CallConnect e r _ => live_signal w e ∧ live_connectable w r
  | CallDisconnect e r =>
      live_signal w e ∧ length (records_to r (m_connected_slots w e)) ≤ 1
  | CallEmit e _ => live_signal w e
  | CallOperator e _ => live_signal w e
  | CallSignalDisconnectAll e => live_signal w e
  | CallConnectableDisconnectAll r => live_connectable w r
  end.

#[global] Instance permitted_dec w c : Decision (permitted w c).
Proof. destruct c; simpl; unfold live_signal, live_connectable; apply _. Defined.

(** Every call of the program is permitted in the world it is made in: the
    first in [w], the next in whatever world the first returns, and so on.
    Nothing is asked about a call that returns no world, and nothing here
    says that a call returns one. *)
Fixpoint permitted_all w (cs : list call) : Prop :=
  match cs with
  | [] => True
  | c :: cs' => permitted w c ∧ ∀ w1, exec c w = Ok w1 → permitted_all w1 cs'
  end.

(** A check of [permitted_all] along one run of the program. *)
Fixpoint permitted_allb w (cs : list call) : bool :=
  match cs with
  | [] => true
  | c :: cs' =>
      bool_decide (permitted w c) &&
      match exec c w with
      | Ok w1 => permitted_allb w1 cs'
      | Fail _ => false
      end
  end.

End Programs.

Arguments call : clear implicits.

(** How often [e] is met when iterating over [L]. *)
Definition occurrences (e : addr) (L : list addr) : nat :=
  length (filter (fun x => x = e) L).

(** ** Worlds for the examples

    The event carries one [nat].  [world0] is the world before any object is
    built.  In [demo] emitter 1 holds four records, two to receiver 10 and
    two to receiver 20; emitter 2 holds one record to receiver 10; emitter 3
    holds none. *)

Definition world0 : World nat := mkWorld ∅ ∅ [].

Definition demo_slots : list Connection :=
  [ mkConnection 20 5; mkConnection 10 7; mkConnection 20 6; mkConnection 10 8 ].

Definition demo_senders : gset positive := {[ 1%positive; 2%positive ]}.

Definition demo : World nat :=
  mkWorld
    {[ 10%positive := demo_senders; 20%positive := {[ 1%positive ]} ]}
    {[ 1%positive := demo_slots;
       2%positive := [ mkConnection 10 9 ];
       3%positive := [] ]}
    [].

(** Two [Connect]s of emitter 1 to receiver 10, from [world0]. *)
Definition connect_twice : res (World nat) :=
  w ← Signal_new 1 world0;
  w ← Connectable_new 10 w;
  w ← Connect 1 10 7 w;
  Connect 1 10 8 w.

(** The world [connect_twice] builds, and the one a [Disconnect] of
    emitter 1 from receiver 10 then leaves. *)
Definition connected_twice : World nat :=
  mkWorld {[ 10%positive := {[ 1%positive ]} ]}
    {[ 1%positive := [ mkConnection 10 7; mkConnection 10 8 ] ]} [].

Definition disconnected_once : World nat :=
  mkWorld {[ 10%positive := ∅ ]} {[ 1%positive := [ mkConnection 10 8 ] ]} [].

(** A program on [demo]: it builds, connects, copies, emits, disconnects
    and destroys objects of both classes. *)
Definition demo_program : list (call nat) :=
  [ NewSignal 5; NewConnectable 30; CallConnect 5 30 1; CopyConnectable 31 30;
    CallEmit 5 9; CallDisconnect 5 30; DeleteConnectable 10; CallOperator 1 3;
    CopySignal 6 1; DeleteSignal 1; CallEmit 6 4; DeleteConnectable 31;
    CallSignalDisconnectAll 6; CallConnectableDisconnectAll 20 ].

(** Runs the binds of the result monad whose left side is known. *)
Ltac res_step := unfold mbind, res_bind; cbv beta iota.

(** ** The loops on lists *)

Lemma Clone_id c : Clone c = c.
Proof. by destruct c. Qed.

Lemma map_Clone l : map Clone l = l.
Proof. induction l as [|c l IH]; simpl; [done|]. by rewrite Clone_id, IH. Qed.

Lemma SlotDisconnect_loop_filter pslot l :
  SlotDisconnect_loop pslot l = records_not_to pslot l.
Proof.
  unfold records_not_to.
  induction l as [|c l IH]; simpl; [done|].
  rewrite filter_cons. rewrite IH.
  destruct (decide (GetDest c = pslot)), (decide (GetDest c ≠ pslot)); done.
Qed.

Lemma records_to_not_to p l : records_to p (records_not_to p l) = [].
Proof.
  unfold records_to, records_not_to.
  induction l as [|c l IH]; [done|].
  rewrite filter_cons. destruct (decide (GetDest c ≠ p)); [|done].
  by rewrite filter_cons_False.
Qed.

Lemma records_to_other p q l :
  q ≠ p → records_to q (records_not_to p l) = records_to q l.
Proof.
  intros Hqp. unfold records_to, records_not_to.
  induction l as [|c l IH]; [done|].
  rewrite !filter_cons.
  destruct (decide (GetDest c ≠ p)) as [Hc|Hc].
  - rewrite filter_cons. by rewrite IH.
  - destruct (decide (GetDest c = q)) as [Hq|Hq]; [|done].
    exfalso. apply Hc. congruence.
Qed.

Lemma records_to_nil_Forall p l :
  records_to p l = [] ↔ Forall (fun c => GetDest c ≠ p) l.
Proof.
  unfold records_to. induction l as [|c l IH]; [by split; [constructor|]|].
  rewrite filter_cons, Forall_cons.
  destruct (decide (GetDest c = p)); [naive_solver|]. rewrite IH. naive_solver.
Qed.

Lemma Disconnect_loop_None pslot l :
  Disconnect_loop pslot l = None ↔ records_to pslot l = [].
Proof.
  rewrite records_to_nil_Forall.
  induction l as [|c l IH]; simpl; [by split; [constructor|]|].
  rewrite Forall_cons.
  destruct (decide (GetDest c ≠ pslot)) as [Hc|Hc].
  - rewrite fmap_None. rewrite IH. naive_solver.
  - naive_solver.
Qed.

(** The loop erases the first record whose target is [pslot], and only it. *)
Lemma Disconnect_loop_Some pslot l l' :
  Disconnect_loop pslot l = Some l' ↔
  ∃ l1 c l2, l = l1 ++ c :: l2 ∧ records_to pslot l1 = [] ∧
             GetDest c = pslot ∧ l' = l1 ++ l2.
Proof.
  revert l'. induction l as [|c l IH]; intros l'; simpl.
  - split; [done|]. intros (l1 & c & l2 & Hl & _). by destruct l1.
  - destruct (decide (GetDest c ≠ pslot)) as [Hc|Hc].
    + rewrite fmap_Some. split.
      * intros (l0 & Hl0 & ->). apply IH in Hl0 as (l1 & c' & l2 & -> & H1 & H2 & ->).
        exists (c :: l1), c', l2. split_and!; try done.
        unfold records_to. by rewrite filter_cons_False.
      * intros (l1 & c' & l2 & Hl & H1 & H2 & ->).
        destruct l1 as [|c1 l1]; simpl in Hl; injection Hl as Hc1 Hl.
        { exfalso. apply Hc. by rewrite Hc1. }
        exists (l1 ++ l2). split; [|by rewrite Hc1]. apply IH.
        exists l1, c', l2. split_and!; try done.
        unfold records_to in *. rewrite filter_cons in H1.
        by destruct (decide (GetDest c1 = pslot)).
    + apply dec_stable in Hc. split.
      * intros [= <-]. by exists [], c, l.
      * intros (l1 & c' & l2 & Hl & H1 & H2 & ->).
        destruct l1 as [|c1 l1]; simpl in Hl; injection Hl as Hc1 Hl.
        { by rewrite Hl. }
        unfold records_to in H1. rewrite filter_cons_True in H1; [done|].
        by rewrite <-Hc1.
Qed.

Lemma SlotDuplicate_loop_mono fuel fuel' oldtarget newtarget visited pending r :
  SlotDuplicate_loop fuel oldtarget newtarget visited pending = Some r →
  fuel ≤ fuel' →
  SlotDuplicate_loop fuel' oldtarget newtarget visited pending = Some r.
Proof.
  revert fuel' visited pending.
  induction fuel as [|fuel IH]; intros fuel' visited pending; simpl; [done|].
  intros Hr Hle. destruct fuel' as [|fuel']; [lia|]. simpl.
  destruct pending as [|slot rest]; [done|].
  destruct (decide (GetDest slot ≠ oldtarget)); apply IH; (done || lia).
Qed.

(** With distinct targets, or nothing to duplicate, the loop ends. *)
Lemma SlotDuplicate_loop_ends fuel oldtarget newtarget visited pending :
  oldtarget ≠ newtarget ∨ records_to oldtarget pending = [] →
  length pending + length (records_to oldtarget pending) < fuel →
  SlotDuplicate_loop fuel oldtarget newtarget visited pending
  = Some (visited ++ duplicated oldtarget newtarget pending).
Proof.
  unfold duplicated, records_to.
  revert visited pending.
  induction fuel as [|fuel IH]; intros visited pending Hor Hlt; [lia|]. simpl.
  destruct pending as [|slot rest]; simpl.
  { by rewrite app_nil_r. }
  rewrite filter_cons in Hlt, Hor |- *.
  destruct (decide (GetDest slot ≠ oldtarget)) as [Hs|Hs].
  - destruct (decide (GetDest slot = oldtarget)); [done|].
    rewrite IH; [|done|simpl in Hlt; lia]. by rewrite <-app_assoc.
  - apply dec_stable in Hs.
    destruct (decide (GetDest slot = oldtarget)); [|done].
    destruct Hor as [Hne|?]; [|done].
    assert (filter (fun c => GetDest c = oldtarget) (rest ++ [Duplicate slot newtarget])
            = filter (fun c => GetDest c = oldtarget) rest) as Hf.
    { rewrite filter_app, filter_cons_False, filter_nil, app_nil_r; [done|].
      simpl. congruence. }
    rewrite IH; rewrite ?Hf.
    + simpl. by rewrite <-!app_assoc.
    + by left.
    + rewrite length_app. simpl in *. lia.
Qed.

(** With [oldtarget] as the new target every appended record matches again:
    the loop never reaches [end()]. *)
Lemma SlotDuplicate_loop_diverges fuel target visited pending :
  Exists (fun c => GetDest c = target) pending →
  SlotDuplicate_loop fuel target target visited pending = None.
Proof.
  revert visited pending.
  induction fuel as [|fuel IH]; intros visited pending Hex; simpl; [done|].
  destruct pending as [|slot rest]; [by apply Exists_nil in Hex|].
  destruct (decide (GetDest slot ≠ target)) as [Hs|Hs].
  - apply IH. apply Exists_cons in Hex as [?|?]; done.
  - apply IH. apply Exists_app. right. by apply Exists_cons_hd.
Qed.

Lemma records_to_nil_or_Exists p l :
  records_to p l = [] ∨ Exists (fun c => GetDest c = p) l.
Proof.
  destruct (decide (Exists (fun c => GetDest c = p) l)) as [?|Hn]; [by right|left].
  apply records_to_nil_Forall. by apply not_Exists_Forall in Hn; [|apply _].
Qed.

(** A run of the loop that stops with any fuel stops with [SlotDuplicate_fuel]:
    [Fail Diverges] in [SlotDuplicate] is a loop that does not stop. *)
Lemma SlotDuplicate_loop_adequate oldtarget newtarget l r :
  (∃ fuel, SlotDuplicate_loop fuel oldtarget newtarget [] l = Some r) ↔
  SlotDuplicate_loop (SlotDuplicate_fuel l) oldtarget newtarget [] l = Some r.
Proof.
  split; [|by eauto].
  intros [fuel Hr].
  assert (length l + length (records_to oldtarget l) < SlotDuplicate_fuel l) as Hfuel.
  { unfold SlotDuplicate_fuel, records_to.
    pose proof (length_filter (fun c => GetDest c = oldtarget) l). lia. }
  assert (oldtarget ≠ newtarget ∨ records_to oldtarget l = []) as Hor.
  { destruct (decide (oldtarget = newtarget)) as [<-|]; [|by left].
    destruct (records_to_nil_or_Exists oldtarget l) as [?|Hex]; [by right|].
    by rewrite SlotDuplicate_loop_diverges in Hr. }
  pose proof (SlotDuplicate_loop_ends _ _ _ [] _ Hor Hfuel) as Hcanon.
  rewrite Hcanon.
  destruct (decide (fuel ≤ SlotDuplicate_fuel l)).
  - eapply SlotDuplicate_loop_mono in Hr; [|done]. congruence.
  - eapply SlotDuplicate_loop_mono in Hcanon; [|by apply Nat.lt_le_incl, Nat.nle_gt].
    congruence.
Qed.

(** ** The operations, one at a time *)


Lemma sender_order_elem_of (s : gset positive) e : e ∈ sender_order s ↔ e ∈ s.
Proof.
  unfold sender_order. rewrite merge_sort_Permutation. apply elem_of_elements.
Qed.

Lemma sender_order_NoDup (s : gset positive) : NoDup (sender_order s).
Proof.
  unfold sender_order. rewrite merge_sort_Permutation. apply NoDup_elements.
Qed.

Lemma for_each_nil {A S : Type} (body : A → S → res S) s :
  for_each body [] s = Ok s.
Proof. done. Qed.

Lemma for_each_cons {A S : Type} (body : A → S → res S) x l s :
  for_each body (x :: l) s = body x s ≫= for_each body l.
Proof. done. Qed.

Section Operations.

Context {Args : Type}.
Implicit Types w : World Args.

Lemma SignalConnect_spec w r e s :
  connectables w !! r = Some s →
  SignalConnect r e w = Ok (set_senders r ({[e]} ∪ s) w).
Proof. intros Hr. unfold SignalConnect, senders_of. by rewrite Hr. Qed.

Lemma SignalDisconnect_spec w r e s :
  connectables w !! r = Some s →
  SignalDisconnect r e w = Ok (set_senders r (s ∖ {[e]}) w).
Proof. intros Hr. unfold SignalDisconnect, senders_of. by rewrite Hr. Qed.

Lemma SlotDisconnect_spec w e r l :
  signals w !! e = Some l →
  SlotDisconnect e r w = Ok (set_slots e (records_not_to r l) w).
Proof.
  intros He. unfold SlotDisconnect, slots_of. rewrite He. simpl.
  by rewrite SlotDisconnect_loop_filter.
Qed.

Lemma SlotDuplicate_spec w e oldtarget newtarget l :
  oldtarget ≠ newtarget →
  signals w !! e = Some l →
  SlotDuplicate e oldtarget newtarget w
  = Ok (set_slots e (duplicated oldtarget newtarget l) w).
Proof.
  intros Hne He. unfold SlotDuplicate, slots_of. rewrite He. res_step.
  rewrite SlotDuplicate_loop_ends; [done|by left|].
  unfold SlotDuplicate_fuel, records_to.
  pose proof (length_filter (fun c => GetDest c = oldtarget) l). lia.
Qed.

Lemma Connect_spec w e r h l s :
  signals w !! e = Some l →
  connectables w !! r = Some s →
  Connect e r h w
  = Ok (mkWorld (<[r := {[e]} ∪ s]> (connectables w))
          (<[e := l ++ [mkConnection r h]]> (signals w)) (calls w)).
Proof.
  intros He Hr. unfold Connect, slots_of. rewrite He. simpl.
  by rewrite (SignalConnect_spec _ _ _ s).
Qed.

Lemma Disconnect_spec_found w e r l l' s :
  signals w !! e = Some l →
  Disconnect_loop r l = Some l' →
  connectables w !! r = Some s →
  Disconnect e r w
  = Ok (mkWorld (<[r := s ∖ {[e]}]> (connectables w)) (<[e := l']> (signals w)) (calls w)).
Proof.
  intros He Hl Hr. unfold Disconnect, slots_of. rewrite He. simpl. rewrite Hl.
  by rewrite (SignalDisconnect_spec _ _ _ s).
Qed.

Lemma Disconnect_spec_absent w e r l :
  signals w !! e = Some l →
  records_to r l = [] →
  Disconnect e r w = Ok w.
Proof.
  intros He Hl. unfold Disconnect, slots_of. rewrite He. simpl.
  apply Disconnect_loop_None in Hl. by rewrite Hl.
Qed.

Lemma Connection_Emit_spec args c w s :
  connectables w !! GetDest c = Some s →
  Connection_Emit args c w
  = Ok (mkWorld (connectables w) (signals w) (calls w ++ invocations args [c])).
Proof. intros Hc. unfold Connection_Emit. unfold GetDest in Hc. by rewrite Hc. Qed.

(** One pass of [Emit] over records whose targets are all live. *)
Lemma Emit_loop_spec args l w :
  Forall (fun c => live_connectable w (GetDest c)) l →
  for_each (Connection_Emit args) l w
  = Ok (mkWorld (connectables w) (signals w) (calls w ++ invocations args l)).
Proof.
  revert w. induction l as [|c l IH]; intros w Hl.
  - simpl. rewrite app_nil_r. by destruct w.
  - apply Forall_cons in Hl as [[s Hc] Hl]. rewrite for_each_cons.
    rewrite (Connection_Emit_spec _ _ _ s Hc). res_step.
    rewrite IH; [|done]. simpl. by rewrite <-app_assoc.
Qed.

Lemma Emit_spec w e args l :
  signals w !! e = Some l →
  targets_live w e →
  Emit e args w
  = Ok (mkWorld (connectables w) (signals w) (calls w ++ invocations args l)).
Proof.
  intros He Hl. unfold Emit, slots_of. rewrite He. simpl.
  apply Emit_loop_spec. unfold targets_live, m_connected_slots in Hl. by rewrite He in Hl.
Qed.

End Operations.

(** ** The loops over the containers of the other side *)

Section Loops.

Context {Args : Type}.
Implicit Types w : World Args.

Lemma insert_is_Some_keep {V} (m : gmap positive V) i v k :
  is_Some (m !! k) → is_Some (<[i := v]> m !! k).
Proof. intros Hk. apply lookup_insert_is_Some'. by right. Qed.

Lemma records_not_to_idemp r l :
  records_not_to r (records_not_to r l) = records_not_to r l.
Proof.
  unfold records_not_to. induction l as [|c l IH]; [done|].
  rewrite filter_cons. destruct (decide (GetDest c ≠ r)); [|done].
  by rewrite filter_cons_True, IH.
Qed.

(** [Connectable::DisconnectAll], the loop: every listed emitter drops its
    records to [r]; nothing else changes. *)
Lemma DisconnectAll_senders_loop r L w :
  Forall (live_signal w) L →
  ∃ w', for_each (fun sender => SlotDisconnect sender r) L w = Ok w' ∧
        connectables w' = connectables w ∧ calls w' = calls w ∧
        ∀ e, signals w' !! e =
             if decide (e ∈ L) then records_not_to r <$> signals w !! e
             else signals w !! e.
Proof.
  revert w. induction L as [|x L IH]; intros w HL.
  - exists w. split_and!; try done; intros e; by rewrite decide_False by set_solver.
  - apply Forall_cons in HL as [[l Hx] HL]. rewrite for_each_cons.
    rewrite (SlotDisconnect_spec _ _ _ l Hx). res_step.
    destruct (IH (set_slots x (records_not_to r l) w)) as (w' & Hrun & Hc & Hk & Hs).
    { eapply Forall_impl; [exact HL|]. intros e He. by apply insert_is_Some_keep. }
    exists w'. split_and!; try done. intros e. rewrite Hs. simpl.
    destruct (decide (e = x)) as [->|Hne].
    + rewrite lookup_insert_eq, Hx. simpl. rewrite records_not_to_idemp.
      rewrite (decide_True (P := x ∈ x :: L)) by set_solver. by case_decide.
    + rewrite lookup_insert_ne by done.
      destruct (decide (e ∈ L)).
      * by rewrite decide_True by set_solver.
      * by rewrite decide_False by set_solver.
Qed.

Lemma Connectable_DisconnectAll_spec w r s :
  connectables w !! r = Some s →
  senders_live w r →
  ∃ w', Connectable_DisconnectAll r w = Ok w' ∧
        connectables w' = <[r := ∅]> (connectables w) ∧ calls w' = calls w ∧
        ∀ e, signals w' !! e =
             if decide (e ∈ s) then records_not_to r <$> signals w !! e
             else signals w !! e.
Proof.
  intros Hr Hlive. unfold Connectable_DisconnectAll, senders_of. rewrite Hr. res_step.
  destruct (DisconnectAll_senders_loop r (sender_order s) w) as (w' & Hrun & Hc & Hk & Hs).
  { apply Forall_forall. intros e He. apply sender_order_elem_of in He.
    apply Hlive. unfold m_senders. by rewrite Hr. }
  rewrite Hrun. res_step. eexists. split; [done|]. simpl. rewrite Hc.
  split_and!; try done. intros e. rewrite Hs.
  destruct (decide (e ∈ s)).
  - by rewrite decide_True by by apply sender_order_elem_of.
  - by rewrite decide_False by by rewrite sender_order_elem_of.
Qed.

Lemma Connectable_delete_spec w r s :
  connectables w !! r = Some s →
  senders_live w r →
  ∃ w', Connectable_delete r w = Ok w' ∧
        connectables w' = delete r (connectables w) ∧ calls w' = calls w ∧
        ∀ e, signals w' !! e =
             if decide (e ∈ s) then records_not_to r <$> signals w !! e
             else signals w !! e.
Proof.
  intros Hr Hlive.
  destruct (Connectable_DisconnectAll_spec w r s Hr Hlive) as (w' & Hrun & Hc & Hk & Hs).
  unfold Connectable_delete. rewrite Hrun. res_step.
  eexists. split; [done|]. simpl. rewrite Hc. by rewrite delete_insert_eq.
Qed.

(** [Signal::DisconnectAll], the loop: every target of a record drops [e]
    from its registry; nothing else changes. *)
Lemma DisconnectAll_slots_loop e l w :
  Forall (fun c => live_connectable w (GetDest c)) l →
  ∃ w', for_each (fun slot => SignalDisconnect (GetDest slot) e) l w = Ok w' ∧
        signals w' = signals w ∧ calls w' = calls w ∧
        ∀ r, connectables w' !! r =
             if decide (r ∈ map GetDest l)
             then (fun s => s ∖ {[e]}) <$> connectables w !! r
             else connectables w !! r.
Proof.
  revert w. induction l as [|c l IH]; intros w Hl.
  - exists w. split_and!; try done; intros r; simpl; by rewrite decide_False by set_solver.
  - apply Forall_cons in Hl as [[s Hc] Hl]. rewrite for_each_cons.
    rewrite (SignalDisconnect_spec _ _ _ s Hc). res_step.
    destruct (IH (set_senders (GetDest c) (s ∖ {[e]}) w)) as (w' & Hrun & Hs & Hk & Hcs).
    { eapply Forall_impl; [exact Hl|]. intros c' Hc'. by apply insert_is_Some_keep. }
    exists w'. split_and!; try done. intros r. rewrite Hcs. simpl.
    destruct (decide (r = GetDest c)) as [->|Hne].
    + rewrite lookup_insert_eq, Hc. simpl.
      rewrite (decide_True (P := GetDest c ∈ GetDest c :: map GetDest l)) by set_solver.
      case_decide; f_equal; set_solver.
    + rewrite lookup_insert_ne by done.
      destruct (decide (r ∈ map GetDest l)).
      * by rewrite decide_True by set_solver.
      * by rewrite decide_False by set_solver.
Qed.

Lemma Signal_DisconnectAll_spec w e l :
  signals w !! e = Some l →
  targets_live w e →
  ∃ w', Signal_DisconnectAll e w = Ok w' ∧
        signals w' = <[e := []]> (signals w) ∧ calls w' = calls w ∧
        ∀ r, connectables w' !! r =
             if decide (r ∈ map GetDest l)
             then (fun s => s ∖ {[e]}) <$> connectables w !! r
             else connectables w !! r.
Proof.
  intros He Hlive. unfold Signal_DisconnectAll, slots_of. rewrite He. res_step.
  destruct (DisconnectAll_slots_loop e l w) as (w' & Hrun & Hs & Hk & Hcs).
  { unfold targets_live, m_connected_slots in Hlive. by rewrite He in Hlive. }
  rewrite Hrun. res_step. eexists. split; [done|]. simpl. by rewrite Hs.
Qed.

Lemma Signal_delete_spec w e l :
  signals w !! e = Some l →
  targets_live w e →
  ∃ w', Signal_delete e w = Ok w' ∧
        signals w' = delete e (signals w) ∧ calls w' = calls w ∧
        ∀ r, connectables w' !! r =
             if decide (r ∈ map GetDest l)
             then (fun s => s ∖ {[e]}) <$> connectables w !! r
             else connectables w !! r.
Proof.
  intros He Hlive.
  destruct (Signal_DisconnectAll_spec w e l He Hlive) as (w' & Hrun & Hs & Hk & Hcs).
  unfold Signal_delete. rewrite Hrun. res_step.
  eexists. split; [done|]. simpl. rewrite Hs. by rewrite delete_insert_eq.
Qed.

(** [Signal(const Signal &src)], the loop: [this] collects a clone of every
    record, in order, and every target of a record registers [this]. *)
Lemma Signal_copy_loop this lsrc l0 w :
  signals w !! this = Some l0 →
  Forall (fun c => live_connectable w (GetDest c)) lsrc →
  ∃ w', for_each (fun slot w1 =>
            w2 ← SignalConnect (GetDest slot) this w1;
            l ← slots_of this w2;
            Ok (set_slots this (l ++ [Clone slot]) w2)) lsrc w = Ok w' ∧
        signals w' = <[this := l0 ++ lsrc]> (signals w) ∧ calls w' = calls w ∧
        ∀ r, connectables w' !! r =
             if decide (r ∈ map GetDest lsrc)
             then (fun s => {[this]} ∪ s) <$> connectables w !! r
             else connectables w !! r.
Proof.
  revert l0 w. induction lsrc as [|c lsrc IH]; intros l0 w Hthis Hl.
  - exists w. rewrite app_nil_r, insert_id by done.
    split_and!; try done; intros r; simpl; by rewrite decide_False by set_solver.
  - apply Forall_cons in Hl as [[s Hc] Hl]. rewrite for_each_cons.
    rewrite (SignalConnect_spec _ _ _ s Hc). res_step.
    unfold slots_of. simpl. rewrite Hthis. res_step. rewrite Clone_id.
    set (w1 := set_slots this (l0 ++ [c]) (set_senders (GetDest c) ({[this]} ∪ s) w)).
    destruct (IH (l0 ++ [c]) w1) as (w' & Hrun & Hs & Hk & Hcs).
    { simpl. by rewrite lookup_insert_eq. }
    { eapply Forall_impl; [exact Hl|]. intros c' Hc'. by apply insert_is_Some_keep. }
    exists w'. split_and!; try done.
    + rewrite Hs. simpl. by rewrite insert_insert_eq, <-app_assoc.
    + intros r. rewrite Hcs. simpl.
      destruct (decide (r = GetDest c)) as [->|Hne].
      * rewrite lookup_insert_eq, Hc. simpl.
        rewrite (decide_True (P := GetDest c ∈ GetDest c :: map GetDest lsrc)) by set_solver.
        case_decide; f_equal; set_solver.
      * rewrite lookup_insert_ne by done.
        destruct (decide (r ∈ map GetDest lsrc)).
        -- by rewrite decide_True by set_solver.
        -- by rewrite decide_False by set_solver.
Qed.

Lemma Signal_copy_spec w this src l :
  signals w !! src = Some l →
  signals w !! this = None →
  targets_live w src →
  ∃ w', Signal_copy this src w = Ok w' ∧
        signals w' = <[this := l]> (signals w) ∧ calls w' = calls w ∧
        ∀ r, connectables w' !! r =
             if decide (r ∈ map GetDest l)
             then (fun s => {[this]} ∪ s) <$> connectables w !! r
             else connectables w !! r.
Proof.
  intros Hsrc Hthis Hlive. unfold Signal_copy, Signal_new. rewrite Hthis. res_step.
  assert (src ≠ this) as Hne by congruence.
  unfold slots_of. simpl. rewrite lookup_insert_ne, Hsrc by done. res_step.
  destruct (Signal_copy_loop this l [] (set_slots this [] w)) as (w' & Hrun & Hs & Hk & Hcs).
  { simpl. by rewrite lookup_insert_eq. }
  { unfold targets_live, m_connected_slots in Hlive. by rewrite Hsrc in Hlive. }
  exists w'. split_and!; try done.
  rewrite Hs. simpl. by rewrite insert_insert_eq.
Qed.

(** [Connectable(Connectable const &src)], the loop: every listed emitter
    duplicates its records to [src] for [this], and [this] registers it. *)
Lemma Connectable_copy_loop this src L s0 w :
  src ≠ this →
  connectables w !! this = Some s0 →
  NoDup L →
  Forall (live_signal w) L →
  ∃ w', for_each (fun sender w1 =>
            w2 ← SlotDuplicate sender src this w1;
            SignalConnect this sender w2) L w = Ok w' ∧
        connectables w' = <[this := list_to_set L ∪ s0]> (connectables w) ∧
        calls w' = calls w ∧
        ∀ e, signals w' !! e =
             if decide (e ∈ L) then duplicated src this <$> signals w !! e
             else signals w !! e.
Proof.
  intros Hne. revert s0 w. induction L as [|x L IH]; intros s0 w Hthis Hnd HL.
  - exists w. simpl. rewrite union_empty_l_L, insert_id by done.
    split_and!; try done; intros e; by rewrite decide_False by set_solver.
  - apply Forall_cons in HL as [[l Hx] HL]. apply NoDup_cons in Hnd as [Hx' Hnd].
    rewrite for_each_cons.
    rewrite (SlotDuplicate_spec _ _ _ _ l Hne Hx). res_step.
    rewrite (SignalConnect_spec _ _ _ s0) by done.
    set (w1 := set_senders this ({[x]} ∪ s0) (set_slots x (duplicated src this l) w)).
    destruct (IH ({[x]} ∪ s0) w1) as (w' & Hrun & Hc & Hk & Hs).
    { simpl. by rewrite lookup_insert_eq. }
    { done. }
    { eapply Forall_impl; [exact HL|]. intros e He. by apply insert_is_Some_keep. }
    exists w'. split_and!; try done.
    + rewrite Hc. simpl. rewrite insert_insert_eq. f_equal. set_solver.
    + intros e. rewrite Hs. simpl.
      destruct (decide (e = x)) as [->|Hex].
      * rewrite lookup_insert_eq, Hx. simpl.
        rewrite (decide_True (P := x ∈ x :: L)) by set_solver.
        by rewrite decide_False by done.
      * rewrite lookup_insert_ne by done.
        destruct (decide (e ∈ L)).
        -- by rewrite decide_True by set_solver.
        -- by rewrite decide_False by set_solver.
Qed.

Lemma Connectable_copy_spec w this src s :
  connectables w !! src = Some s →
  connectables w !! this = None →
  senders_live w src →
  ∃ w', Connectable_copy this src w = Ok w' ∧
        connectables w' = <[this := s]> (connectables w) ∧ calls w' = calls w ∧
        ∀ e, signals w' !! e =
             if decide (e ∈ s) then duplicated src this <$> signals w !! e
             else signals w !! e.
Proof.
  intros Hsrc Hthis Hlive. unfold Connectable_copy, Connectable_new. rewrite Hthis. res_step.
  assert (src ≠ this) as Hne by congruence.
  unfold senders_of. simpl. rewrite lookup_insert_ne, Hsrc by done. res_step.
  destruct (Connectable_copy_loop this src (sender_order s) ∅ (set_senders this ∅ w) Hne)
    as (w' & Hrun & Hc & Hk & Hs).
  { simpl. by rewrite lookup_insert_eq. }
  { apply sender_order_NoDup. }
  { apply Forall_forall. intros e He. apply sender_order_elem_of in He.
    apply Hlive. unfold m_senders. by rewrite Hsrc. }
  exists w'. split_and!; try done.
  - rewrite Hc. simpl. rewrite insert_insert_eq. f_equal.
    apply set_eq. intros e. rewrite elem_of_union, elem_of_list_to_set, sender_order_elem_of.
    set_solver.
  - intros e. rewrite Hs. simpl.
    destruct (decide (e ∈ s)).
    + by rewrite decide_True by by apply sender_order_elem_of.
    + by rewrite decide_False by by rewrite sender_order_elem_of.
Qed.

End Loops.

(** ** Properties of the operations *)

Section Claims.

Context {Args : Type}.
Implicit Types w : World Args.

Lemma world_eq w c s k :
  connectables w = c → signals w = s → calls w = k → w = mkWorld c s k.
Proof. destruct w. simpl. by intros -> -> ->. Qed.

(** C9: when emitter [E] holds no record whose target is [R],
    [E.Disconnect(R)] returns with the world as it was: [E]'s list and [R]'s
    senders are untouched, whether or not [R] is live; and [Emit] on an
    emitter whose list is empty returns with the world as it was, no handler
    being called. *)
Theorem Disconnect_absent_Emit_empty_noop w E R args l :
  signals w !! E = Some l →
  (records_to R l = [] → Disconnect E R w = Ok w) ∧
  (l = [] → Emit E args w = Ok w).
Proof.
  intros HE. split.
  - intros Hl. by apply (Disconnect_spec_absent w E R l).
  - intros ->. unfold Emit, slots_of. by rewrite HE.
Qed.

(** C4: with [k >= 1] records of [E] targeting the live receiver [R], one
    [Disconnect(R)] erases the first of them in list order and leaves every
    other record where it was, so [k - 1] remain; one [SlotDisconnect(R)]
    erases all [k] and leaves the records to every other receiver, in order. *)
Theorem Disconnect_first_SlotDisconnect_all w E R l :
  signals w !! E = Some l →
  live_connectable w R →
  1 ≤ length (records_to R l) →
  (∃ w1 l1 c l2,
      Disconnect E R w = Ok w1 ∧
      l = l1 ++ c :: l2 ∧ records_to R l1 = [] ∧ GetDest c = R ∧
      signals w1 !! E = Some (l1 ++ l2) ∧
      length (records_to R (l1 ++ l2)) = length (records_to R l) - 1) ∧
  (∃ w2,
      SlotDisconnect E R w = Ok w2 ∧
      signals w2 !! E = Some (records_not_to R l) ∧
      records_to R (records_not_to R l) = [] ∧
      ∀ R', R' ≠ R → records_to R' (records_not_to R l) = records_to R' l).
Proof.
  intros HE [s HR] Hk. split.
  - destruct (Disconnect_loop R l) as [l'|] eqn:Hloop.
    + pose proof Hloop as Hsplit.
      apply Disconnect_loop_Some in Hsplit as (l1 & c & l2 & -> & H1 & Hc & ->).
      eexists _, l1, c, l2.
      rewrite (Disconnect_spec_found w E R _ _ s HE Hloop HR).
      split_and!; try done.
      * simpl. by rewrite lookup_insert_eq.
      * unfold records_to in *. rewrite !filter_app, filter_cons_True by done.
        rewrite !length_app. simpl. lia.
    + apply Disconnect_loop_None in Hloop. rewrite Hloop in Hk. simpl in Hk. lia.
  - eexists. rewrite (SlotDisconnect_spec w E R l HE). split_and!; try done.
    + simpl. by rewrite lookup_insert_eq.
    + apply records_to_not_to.
    + intros R' HR'. by apply records_to_other.
Qed.

(** C10: [SlotDisconnect(R)] on emitter [E] rewrites [E]'s own list and
    nothing else: no senders set, no other emitter's list, no call.  So when
    [E] is in [R]'s senders before a direct call, it still is afterwards,
    with no record of [E] targeting [R].  On the destruction path it is
    [Connectable::DisconnectAll] that empties the senders set. *)
Theorem SlotDisconnect_frame w E R l :
  signals w !! E = Some l →
  ∃ w1,
    SlotDisconnect E R w = Ok w1 ∧
    connectables w1 = connectables w ∧ calls w1 = calls w ∧
    (∀ E', E' ≠ E → signals w1 !! E' = signals w !! E') ∧
    signals w1 !! E = Some (records_not_to R l) ∧
    (E ∈ m_senders w R → E ∈ m_senders w1 R ∧ records_to R (m_connected_slots w1 E) = []) ∧
    (∀ s, connectables w !! R = Some s → senders_live w R →
       ∃ w2, Connectable_DisconnectAll R w = Ok w2 ∧ connectables w2 !! R = Some ∅).
Proof.
  intros HE. eexists. rewrite (SlotDisconnect_spec w E R l HE).
  split_and!; try done.
  - intros E' HE'. simpl. by rewrite lookup_insert_ne.
  - simpl. by rewrite lookup_insert_eq.
  - intros Hin. split; [done|]. unfold m_connected_slots. simpl. rewrite lookup_insert_eq. simpl.
    apply records_to_not_to.
  - intros s HR Hlive.
    destruct (Connectable_DisconnectAll_spec w R s HR Hlive) as (w2 & Hrun & Hc & _).
    exists w2. split; [done|]. rewrite Hc. by rewrite lookup_insert_eq.
Qed.

(** C5, amended: for [oldReceiver] and [newReceiver] distinct,
    [SlotDuplicate] returns; the list it leaves is the old list, unchanged,
    followed by one new record per record that targeted [oldReceiver], in
    their order, each targeting [newReceiver] with the handler of its
    original.  Nothing but this emitter's list changes. *)
Theorem SlotDuplicate_appends_duplicates w E oldReceiver newReceiver l :
  oldReceiver ≠ newReceiver →
  signals w !! E = Some l →
  ∃ w1 added,
    SlotDuplicate E oldReceiver newReceiver w = Ok w1 ∧
    signals w1 !! E = Some (l ++ added) ∧
    Forall2 (fun c d => GetDest d = newReceiver ∧ m_pmemfun d = m_pmemfun c)
      (records_to oldReceiver l) added ∧
    connectables w1 = connectables w ∧ calls w1 = calls w ∧
    ∀ E', E' ≠ E → signals w1 !! E' = signals w !! E'.
Proof.
  intros Hne HE.
  exists (set_slots E (duplicated oldReceiver newReceiver l) w),
         (map (fun c => Duplicate c newReceiver) (records_to oldReceiver l)).
  split_and!; try done.
  - by apply SlotDuplicate_spec.
  - simpl. by rewrite lookup_insert_eq.
  - apply Forall2_fmap_r. apply Forall_Forall2_diag, Forall_forall. by intros c _.
  - intros E' HE'. simpl. by rewrite lookup_insert_ne.
Qed.

Lemma occurrences_not_elem_of e L : e ∉ L → occurrences e L = 0.
Proof.
  unfold occurrences. induction L as [|x L IH]; intros He; [done|].
  apply not_elem_of_cons in He as [Hx He].
  rewrite filter_cons_False by congruence. by apply IH.
Qed.

Lemma occurrences_NoDup e L : NoDup L → occurrences e L ≤ 1.
Proof.
  induction 1 as [|x L Hx Hnd IH]; [unfold occurrences; simpl; lia|].
  unfold occurrences in *. rewrite filter_cons.
  destruct (decide (x = e)) as [->|]; [|done].
  simpl. pose proof (occurrences_not_elem_of e L Hx) as H0.
  unfold occurrences in H0. lia.
Qed.

Lemma occurrences_elem_of e L : e ∈ L → 1 ≤ occurrences e L.
Proof.
  unfold occurrences. intros He.
  assert (e ∈ filter (fun x => x = e) L) as Hin by by apply list_elem_of_filter.
  destruct (filter (fun x => x = e) L); [by apply elem_of_nil in Hin|simpl; lia].
Qed.

(** Any number of [Connect]s of [E] to the live receiver [R]. *)
Lemma Connect_repeat_spec w E R hs l s :
  signals w !! E = Some l →
  connectables w !! R = Some s →
  ∃ w1, for_each (fun h => Connect E R h) hs w = Ok w1 ∧
        signals w1 = <[E := l ++ map (mkConnection R) hs]> (signals w) ∧
        connectables w1
        = <[R := if hs is [] then s else {[E]} ∪ s]> (connectables w) ∧
        calls w1 = calls w.
Proof.
  revert w l s. induction hs as [|h hs IH]; intros w l s HE HR.
  - exists w. simpl. by rewrite app_nil_r, !insert_id.
  - rewrite for_each_cons, (Connect_spec w E R h l s HE HR). res_step.
    edestruct (IH (mkWorld (<[R := {[E]} ∪ s]> (connectables w))
                     (<[E := l ++ [mkConnection R h]]> (signals w)) (calls w)))
      as (w1 & Hrun & Hs & Hc & Hk).
    { simpl. by rewrite lookup_insert_eq. }
    { simpl. by rewrite lookup_insert_eq. }
    exists w1. split_and!; try done.
    + rewrite Hs. simpl. by rewrite insert_insert_eq, <-app_assoc.
    + rewrite Hc. simpl. rewrite insert_insert_eq. f_equal.
      destruct hs; [done|]. set_solver.
Qed.

(** C8: [SignalConnect(E)] on a receiver whose senders already hold [E]
    leaves the world as it was; and however many records [E] adds toward
    the receiver by [Connect], the senders set gains [E] once at most, and an
    iteration over it meets [E] exactly once. *)
Theorem SignalConnect_idempotent_senders_unique w R E s l hs :
  connectables w !! R = Some s →
  signals w !! E = Some l →
  (E ∈ s → SignalConnect R E w = Ok w) ∧
  ∃ w1,
    for_each (fun h => Connect E R h) hs w = Ok w1 ∧
    length (records_to R (m_connected_slots w1 E)) = length (records_to R l) + length hs ∧
    m_senders w1 R = (if hs is [] then s else {[E]} ∪ s) ∧
    (E ∈ s → m_senders w1 R = s) ∧
    (E ∈ m_senders w1 R → occurrences E (sender_order (m_senders w1 R)) = 1).
Proof.
  intros HR HE. split.
  - intros Hin. rewrite (SignalConnect_spec w R E s HR). f_equal.
    symmetry. apply world_eq; simpl; try done.
    rewrite insert_id; [done|]. rewrite HR. f_equal. set_solver.
  - destruct (Connect_repeat_spec w E R hs l s HE HR) as (w1 & Hrun & Hs & Hc & Hk).
    exists w1. split; [done|].
    assert (m_senders w1 R = (if hs is [] then s else {[E]} ∪ s)) as Hsend.
    { unfold m_senders. rewrite Hc. by rewrite lookup_insert_eq. }
    split_and!; try done.
    + unfold m_connected_slots. rewrite Hs, lookup_insert_eq. simpl.
      unfold records_to. rewrite filter_app, length_app. f_equal.
      clear. induction hs as [|h hs IH]; [done|]. simpl.
      rewrite filter_cons_True by done. simpl. by rewrite IH.
    + intros Hin. rewrite Hsend. destruct hs; [done|]. set_solver.
    + intros Hin. apply Nat.le_antisymm.
      * apply occurrences_NoDup, sender_order_NoDup.
      * by apply occurrences_elem_of, sender_order_elem_of.
Qed.

(** Registering the records [cs], in order. *)
Lemma Connect_all_spec w E l cs :
  signals w !! E = Some l →
  Forall (fun c => live_connectable w (GetDest c)) cs →
  ∃ w1, for_each (fun c => Connect E (m_pobject c) (m_pmemfun c)) cs w = Ok w1 ∧
        signals w1 = <[E := l ++ cs]> (signals w) ∧ calls w1 = calls w ∧
        ∀ r, live_connectable w r → live_connectable w1 r.
Proof.
  revert w l. induction cs as [|c cs IH]; intros w l HE Hcs.
  - exists w. simpl. by rewrite app_nil_r, insert_id.
  - apply Forall_cons in Hcs as [[s Hc] Hcs]. rewrite for_each_cons.
    rewrite (Connect_spec w E _ _ l s HE Hc). res_step.
    edestruct (IH (mkWorld (<[m_pobject c := {[E]} ∪ s]> (connectables w))
                     (<[E := l ++ [mkConnection (m_pobject c) (m_pmemfun c)]]> (signals w))
                     (calls w)))
      as (w1 & Hrun & Hs & Hk & Hlive).
    { simpl. by rewrite lookup_insert_eq. }
    { eapply Forall_impl; [exact Hcs|]. intros c' Hc'. by apply insert_is_Some_keep. }
    exists w1. split_and!; try done.
    + rewrite Hs. simpl. rewrite insert_insert_eq, <-app_assoc. by destruct c.
    + intros r Hr. apply Hlive. by apply insert_is_Some_keep.
Qed.

(** C3: registering the records [c1..cN] on an emitter by [Connect], in that
    order, puts them after the records it already held, which keep their
    order; [Emit(args)] then calls the handler of every record exactly once,
    with [args], in list order: the older records first, then [c1..cN] in
    registration order.  Handlers are calls recorded in the log; they do not
    touch the connection lists. *)
Theorem Emit_dispatch_order w E l cs args :
  signals w !! E = Some l →
  targets_live w E →
  Forall (fun c => live_connectable w (GetDest c)) cs →
  ∃ w1 w2,
    for_each (fun c => Connect E (m_pobject c) (m_pmemfun c)) cs w = Ok w1 ∧
    signals w1 !! E = Some (l ++ cs) ∧
    Emit E args w1 = Ok w2 ∧
    calls w2 = calls w ++ invocations args (l ++ cs) ∧
    connectables w2 = connectables w1 ∧ signals w2 = signals w1.
Proof.
  intros HE Hlive Hcs.
  destruct (Connect_all_spec w E l cs HE Hcs) as (w1 & Hrun & Hs & Hk & Hkeep).
  assert (signals w1 !! E = Some (l ++ cs)) as HE1.
  { rewrite Hs. by rewrite lookup_insert_eq. }
  eexists w1, _. split; [done|]. split; [done|].
  rewrite (Emit_spec w1 E args (l ++ cs) HE1).
  - split; [done|]. simpl. by rewrite Hk.
  - unfold targets_live, m_connected_slots in *. rewrite HE1. rewrite HE in Hlive. simpl in *.
    apply Forall_app. split; (eapply Forall_impl; [eassumption|]); intros c; apply Hkeep.
Qed.

Lemma records_not_to_Forall r l :
  Forall (fun c => GetDest c ≠ r) (records_not_to r l).
Proof.
  apply Forall_forall. intros c Hc. by apply list_elem_of_filter in Hc as [? _].
Qed.

Lemma invocations_not_to args r l :
  Forall (fun k : Call Args => call_obj k ≠ r) (invocations args (records_not_to r l)).
Proof.
  unfold invocations. apply Forall_fmap. eapply Forall_impl; [apply records_not_to_Forall|].
  by intros c Hc.
Qed.

Lemma senders_lookup w r e : e ∈ m_senders w r → ∃ s, connectables w !! r = Some s ∧ e ∈ s.
Proof.
  unfold m_senders. destruct (connectables w !! r) as [s|]; simpl; [by eauto|].
  intros He. by apply not_elem_of_empty in He.
Qed.

Lemma Exists_target_elem_of r (l : list Connection) :
  Exists (fun c => GetDest c = r) l → r ∈ map GetDest l.
Proof.
  intros Hex. apply Exists_exists in Hex as (c & Hc & <-).
  apply list_elem_of_fmap. by exists c.
Qed.

(** X17: let emitter [E] hold a record to receiver [R] and be in [R]'s
    senders, every record of [E] pointing at a live receiver and every
    emitter in [R]'s senders being live.
    (a) Destroying [R] succeeds and leaves [E] with no record targeting [R];
    an [Emit] on [E] afterwards returns, and none of the calls it makes is on
    [R].  (b) Destroying [E] succeeds and takes [E] out of [R]'s senders; [R]'s
    own destruction afterwards succeeds without a call on [E], which is gone. *)
Theorem destruction_safety w E R l args :
  signals w !! E = Some l →
  connected w E R →
  targets_live w E →
  senders_live w R →
  (∃ w1 w2,
      Connectable_delete R w = Ok w1 ∧
      signals w1 !! E = Some (records_not_to R l) ∧
      records_to R (m_connected_slots w1 E) = [] ∧
      Emit E args w1 = Ok w2 ∧
      calls w2 = calls w ++ invocations args (records_not_to R l) ∧
      Forall (fun k => call_obj k ≠ R) (invocations args (records_not_to R l))) ∧
  (∃ w1 w2,
      Signal_delete E w = Ok w1 ∧
      signals w1 !! E = None ∧
      m_senders w1 R = m_senders w R ∖ {[E]} ∧
      (E ∉ sender_order (m_senders w1 R)) ∧
      Connectable_delete R w1 = Ok w2 ∧
      signals w2 !! E = None).
Proof.
  intros HE [Hin Hrec] Htl Hsl.
  unfold m_connected_slots in Hrec. rewrite HE in Hrec. simpl in Hrec.
  destruct (senders_lookup w R E Hin) as (s & HR & HEs).
  assert (m_senders w R = s) as Hsend by (unfold m_senders; by rewrite HR).
  split.
  - destruct (Connectable_delete_spec w R s HR Hsl) as (w1 & Hrun & Hc & Hk & Hs).
    assert (signals w1 !! E = Some (records_not_to R l)) as HE1.
    { rewrite Hs, decide_True by done. by rewrite HE. }
    eexists w1, _. split; [done|]. split; [done|]. split.
    { unfold m_connected_slots. rewrite HE1. apply records_to_not_to. }
    rewrite (Emit_spec w1 E args _ HE1).
    + split; [done|]. simpl. rewrite Hk. split; [done|]. apply invocations_not_to.
    + unfold targets_live, m_connected_slots in *. rewrite HE1. rewrite HE in Htl. simpl in *.
      apply Forall_forall. intros c Hc'.
      apply list_elem_of_filter in Hc' as [Hne Hcl].
      unfold live_connectable. rewrite Hc, lookup_delete_ne by done.
      by apply (proj1 (Forall_forall _ _) Htl).
  - destruct (Signal_delete_spec w E l HE Htl) as (w1 & Hrun & Hs & Hk & Hcs).
    assert (connectables w1 !! R = Some (s ∖ {[E]})) as HR1.
    { rewrite Hcs, decide_True by by apply Exists_target_elem_of. by rewrite HR. }
    assert (m_senders w1 R = s ∖ {[E]}) as Hsend1 by (unfold m_senders; by rewrite HR1).
    assert (senders_live w1 R) as Hsl1.
    { intros e He. rewrite Hsend1 in He. apply elem_of_difference in He as [He HeE].
      unfold live_signal. rewrite Hs, lookup_delete_ne by set_solver.
      apply Hsl. by rewrite Hsend. }
    destruct (Connectable_delete_spec w1 R _ HR1 Hsl1) as (w2 & Hrun2 & Hc2 & Hk2 & Hs2).
    exists w1, w2. split_and!; try done.
    + rewrite Hs. apply lookup_delete_eq.
    + by rewrite Hsend1, Hsend.
    + rewrite sender_order_elem_of, Hsend1. set_solver.
    + rewrite Hs2, Hs, lookup_delete_eq. by case_decide.
Qed.

Lemma records_to_duplicated_old src this l :
  src ≠ this → records_to src (duplicated src this l) = records_to src l.
Proof.
  intros Hne. unfold duplicated, records_to. rewrite filter_app.
  assert (∀ l', filter (fun c => GetDest c = src)
                  (map (fun c => Duplicate c this) l') = []) as Hnil.
  { induction l' as [|c l' IH]; [done|].
    simpl. rewrite filter_cons_False; [done|]. simpl. congruence. }
  by rewrite Hnil, app_nil_r.
Qed.

Lemma invocations_app args (l1 l2 : list Connection) :
  invocations (Args:=Args) args (l1 ++ l2) = invocations args l1 ++ invocations args l2.
Proof. unfold invocations. apply map_app. Qed.

(** C6: copy-constructing the live receiver [R], whose senders are all live,
    into the fresh address [R2] succeeds.  [R2]'s senders are then those of
    [R], which are unchanged.  Every emitter [E] in them keeps its records,
    in order, followed by one duplicate to [R2] per record it had to [R],
    with that record's handler; its records to [R] are the same as before.
    An [Emit] on such an [E] then calls the handlers on [R] and, after them,
    the same handlers on [R2].  Destroying [R] afterwards succeeds and leaves
    [R2]'s senders and every emitter's records to [R2] as they were. *)
Theorem Connectable_copy_duplicates w R R2 s args :
  connectables w !! R = Some s →
  connectables w !! R2 = None →
  senders_live w R →
  ∃ w1 w3,
    Connectable_copy R2 R w = Ok w1 ∧
    connectables w1 !! R2 = Some s ∧ connectables w1 !! R = Some s ∧
    (∀ E l, E ∈ s → signals w !! E = Some l →
       signals w1 !! E
       = Some (l ++ map (fun c => Duplicate c R2) (records_to R l)) ∧
       records_to R (m_connected_slots w1 E) = records_to R l ∧
       (targets_live w E →
        ∃ w2, Emit E args w1 = Ok w2 ∧
              calls w2 = calls w ++ invocations args l
                         ++ map (fun c => mkCall R2 (m_pmemfun c) args) (records_to R l))) ∧
    Connectable_delete R w1 = Ok w3 ∧
    connectables w3 !! R2 = Some s ∧
    ∀ E, records_to R2 (m_connected_slots w3 E) = records_to R2 (m_connected_slots w1 E).
Proof.
  intros HR HR2 Hsl.
  assert (R ≠ R2) as Hne by congruence.
  destruct (Connectable_copy_spec w R2 R s HR HR2 Hsl) as (w1 & Hrun & Hc & Hk & Hs).
  assert (connectables w1 !! R = Some s) as HR1.
  { rewrite Hc. by rewrite lookup_insert_ne. }
  assert (senders_live w1 R) as Hsl1.
  { intros e He. unfold m_senders in He. rewrite HR1 in He. simpl in He.
    unfold live_signal. rewrite Hs, decide_True by done.
    apply fmap_is_Some. apply Hsl. unfold m_senders. by rewrite HR. }
  destruct (Connectable_delete_spec w1 R s HR1 Hsl1) as (w3 & Hrun3 & Hc3 & Hk3 & Hs3).
  exists w1, w3. split_and!; try done.
  - rewrite Hc. by rewrite lookup_insert_eq.
  - intros E l HE Hl.
    assert (signals w1 !! E = Some (duplicated R R2 l)) as HE1.
    { rewrite Hs, decide_True by done. by rewrite Hl. }
    split_and!; try done.
    + unfold m_connected_slots. rewrite HE1. simpl. by apply records_to_duplicated_old.
    + intros Htl. eexists. rewrite (Emit_spec w1 E args _ HE1).
      * split; [done|]. simpl. rewrite Hk. unfold duplicated.
        rewrite invocations_app. do 2 f_equal. unfold invocations.
        by rewrite map_map.
      * unfold targets_live, m_connected_slots in *. rewrite HE1. rewrite Hl in Htl. simpl in *.
        unfold duplicated. apply Forall_app. split.
        -- eapply Forall_impl; [exact Htl|]. intros c Hc'.
           unfold live_connectable. rewrite Hc. by apply insert_is_Some_keep.
        -- apply Forall_fmap, Forall_forall. intros c _. simpl.
           unfold live_connectable. rewrite Hc. unfold GetDest. simpl.
           by rewrite lookup_insert_eq.
  - rewrite Hc3, lookup_delete_ne by done. rewrite Hc. by rewrite lookup_insert_eq.
  - intros E. unfold m_connected_slots. rewrite Hs3.
    destruct (decide (E ∈ s)); [|done].
    destruct (signals w1 !! E) as [l1|]; [|done]. simpl.
    apply records_to_other. congruence.
Qed.

(** C7: copy-constructing the live emitter [E], whose records all point at
    live receivers, into the fresh address [E2] succeeds.  [E2]'s list is
    then [E]'s list: the same targets and handlers in the same order; [E]'s
    list is unchanged.  Every receiver targeted by a record gains [E2] in its
    senders and loses nothing; the other receivers are unchanged.  [Emit] on
    [E] and on [E2] make the same calls.  Destroying [E] afterwards succeeds
    and leaves [E2]'s list and [E2]'s place in every senders set. *)
Theorem Signal_copy_duplicates w E E2 l args :
  signals w !! E = Some l →
  signals w !! E2 = None →
  targets_live w E →
  ∃ w1 w2 w2' w3,
    Signal_copy E2 E w = Ok w1 ∧
    signals w1 !! E2 = Some l ∧ signals w1 !! E = Some l ∧
    (∀ R, R ∈ map GetDest l → m_senders w1 R = {[E2]} ∪ m_senders w R) ∧
    (∀ R, R ∉ map GetDest l → connectables w1 !! R = connectables w !! R) ∧
    Emit E args w1 = Ok w2 ∧ calls w2 = calls w ++ invocations args l ∧
    Emit E2 args w1 = Ok w2' ∧ calls w2' = calls w ++ invocations args l ∧
    Signal_delete E w1 = Ok w3 ∧
    signals w3 !! E2 = Some l ∧
    ∀ R, E2 ∈ m_senders w3 R ↔ E2 ∈ m_senders w1 R.
Proof.
  intros HE HE2 Htl.
  assert (E ≠ E2) as Hne by congruence.
  destruct (Signal_copy_spec w E2 E l HE HE2 Htl) as (w1 & Hrun & Hs & Hk & Hc).
  assert (signals w1 !! E = Some l) as HE1.
  { rewrite Hs. by rewrite lookup_insert_ne. }
  assert (signals w1 !! E2 = Some l) as HE21.
  { rewrite Hs. by rewrite lookup_insert_eq. }
  assert (Forall (fun c => live_connectable w1 (GetDest c)) l) as Hl1.
  { unfold targets_live, m_connected_slots in Htl. rewrite HE in Htl. simpl in Htl.
    eapply Forall_impl; [exact Htl|]. intros c Hc'.
    unfold live_connectable. rewrite Hc. case_decide; [|done]. by apply fmap_is_Some. }
  assert (targets_live w1 E) as Htl1.
  { unfold targets_live, m_connected_slots. by rewrite HE1. }
  assert (targets_live w1 E2) as Htl2.
  { unfold targets_live, m_connected_slots. by rewrite HE21. }
  destruct (Signal_delete_spec w1 E l HE1 Htl1) as (w3 & Hrun3 & Hs3 & Hk3 & Hc3).
  eexists w1, _, _, w3.
  rewrite (Emit_spec w1 E args l HE1 Htl1), (Emit_spec w1 E2 args l HE21 Htl2).
  split_and!; try done.
  - intros R HRl. unfold m_senders. rewrite Hc, decide_True by done.
    assert (live_connectable w R) as [s HR].
    { unfold targets_live, m_connected_slots in Htl. rewrite HE in Htl. simpl in Htl.
      apply list_elem_of_fmap in HRl as (c & -> & Hcl).
      by apply (proj1 (Forall_forall _ _) Htl). }
    by rewrite HR.
  - intros R HRl. by rewrite Hc, decide_False.
  - simpl. by rewrite Hk.
  - simpl. by rewrite Hk.
  - rewrite Hs3, lookup_delete_ne by done. done.
  - intros R. unfold m_senders. rewrite Hc3.
    destruct (decide (R ∈ map GetDest l)); [|done].
    destruct (connectables w1 !! R) as [s1|]; [|done]. simpl. set_solver.
Qed.

End Claims.

(** ** The bookkeeping invariant and [Disconnect] *)

Section Bookkeeping.

Context {Args : Type}.
Implicit Types w : World Args.

(** [Disconnect] erases one record and then takes the emitter out of the
    receiver's senders, whatever else the emitter still holds: with a second
    record to [R] in the list, that record stays and [E] is no longer in
    [R]'s senders. *)
Lemma Disconnect_leaves_records_unregistered w E R l :
  signals w !! E = Some l →
  live_connectable w R →
  2 ≤ length (records_to R l) →
  ∃ w1, Disconnect E R w = Ok w1 ∧
        Exists (fun c => GetDest c = R) (m_connected_slots w1 E) ∧ E ∉ m_senders w1 R.
Proof.
  intros HE [s HR] Hk.
  destruct (Disconnect_loop R l) as [l'|] eqn:Hloop.
  - pose proof Hloop as Hsplit.
    apply Disconnect_loop_Some in Hsplit as (l1 & c & l2 & -> & H1 & Hc & ->).
    eexists. rewrite (Disconnect_spec_found w E R _ _ s HE Hloop HR).
    split; [done|]. unfold m_connected_slots, m_senders. simpl. rewrite !lookup_insert_eq. simpl.
    split; [|set_solver].
    unfold records_to in Hk, H1. rewrite filter_app, H1, filter_cons_True in Hk by done.
    simpl in Hk. apply Exists_app. right.
    destruct (records_to_nil_or_Exists R l2) as [Hnil|?]; [|done].
    unfold records_to in Hnil. rewrite Hnil in Hk. simpl in Hk. lia.
  - apply Disconnect_loop_None in Hloop. rewrite Hloop in Hk. simpl in Hk. lia.
Qed.

Lemma bookkeeping_live w e c :
  bookkeeping w → c ∈ m_connected_slots w e → live_connectable w (GetDest c).
Proof.
  intros Hinv Hc. destruct (senders_lookup w _ _ (Hinv e c Hc)) as (s & Hs & _).
  unfold live_connectable. by rewrite Hs.
Qed.

Lemma bookkeeping_targets_live w e : bookkeeping w → targets_live w e.
Proof.
  intros Hinv. apply Forall_forall. intros c Hc. by apply (bookkeeping_live w e).
Qed.

(** The other operations keep both sides in step. *)
Lemma bookkeeping_Connect w E R h l s :
  bookkeeping w →
  signals w !! E = Some l →
  connectables w !! R = Some s →
  ∃ w1, Connect E R h w = Ok w1 ∧ bookkeeping w1.
Proof.
  intros Hinv HE HR. eexists. split; [by apply Connect_spec|].
  intros e c. unfold m_connected_slots, m_senders. simpl. intros Hc.
  assert (e = E ∧ c = mkConnection R h ∨ c ∈ m_connected_slots w e) as [[-> ->]|Hold].
  { destruct (decide (e = E)) as [->|Hne].
    - rewrite lookup_insert_eq in Hc. simpl in Hc.
      apply elem_of_app in Hc as [Hc|Hc].
      + right. unfold m_connected_slots. by rewrite HE.
      + left. by apply list_elem_of_singleton in Hc.
    - right. unfold m_connected_slots. by rewrite lookup_insert_ne in Hc. }
  - simpl. rewrite lookup_insert_eq. simpl. set_solver.
  - specialize (Hinv e c Hold). unfold m_senders in Hinv.
    destruct (decide (GetDest c = R)) as [Hc'|Hc'].
    + rewrite Hc' in Hinv |- *. rewrite HR in Hinv.
      rewrite lookup_insert_eq. simpl in *. set_solver.
    + by rewrite lookup_insert_ne.
Qed.

Lemma bookkeeping_Disconnect_last w E R l :
  bookkeeping w →
  signals w !! E = Some l →
  length (records_to R l) = 1 →
  ∃ w1, Disconnect E R w = Ok w1 ∧ bookkeeping w1.
Proof.
  intros Hinv HE Hk.
  destruct (Disconnect_loop R l) as [l'|] eqn:Hloop;
    [|apply Disconnect_loop_None in Hloop; by rewrite Hloop in Hk].
  pose proof Hloop as Hsplit.
  apply Disconnect_loop_Some in Hsplit as (l1 & c & l2 & -> & H1 & Hc & ->).
  assert (records_to R (l1 ++ l2) = []) as Hrest.
  { unfold records_to in *. rewrite filter_app, H1, filter_cons_True in Hk by done.
    rewrite filter_app, H1. simpl in *. apply nil_length_inv. lia. }
  assert (live_connectable w R) as [s HR].
  { rewrite <-Hc. apply (bookkeeping_live w E); [done|].
    unfold m_connected_slots. rewrite HE. simpl. set_solver. }
  eexists. split; [by apply (Disconnect_spec_found w E R _ _ s HE Hloop HR)|].
  intros e c'. unfold m_connected_slots, m_senders. simpl. intros Hc'.
  assert (c' ∈ m_connected_slots w e ∧ (GetDest c' = R → e ≠ E)) as [Hold Hother].
  { destruct (decide (e = E)) as [->|Hne].
    - rewrite lookup_insert_eq in Hc'. simpl in Hc'. split.
      + unfold m_connected_slots. rewrite HE. simpl. set_solver.
      + intros Hto. exfalso.
        apply records_to_nil_Forall in Hrest.
        by apply (proj1 (Forall_forall _ _) Hrest c').
    - rewrite lookup_insert_ne in Hc' by done. split; [by unfold m_connected_slots|done]. }
  specialize (Hinv e c' Hold). unfold m_senders in Hinv.
  destruct (decide (GetDest c' = R)) as [Hto|Hto].
  - rewrite Hto in Hinv |- *. rewrite HR in Hinv. rewrite lookup_insert_eq.
    simpl in *. specialize (Hother Hto). set_solver.
  - by rewrite lookup_insert_ne.
Qed.

Lemma bookkeeping_Connectable_delete w R s :
  bookkeeping w →
  connectables w !! R = Some s →
  senders_live w R →
  ∃ w1, Connectable_delete R w = Ok w1 ∧ bookkeeping w1.
Proof.
  intros Hinv HR Hsl.
  destruct (Connectable_delete_spec w R s HR Hsl) as (w1 & Hrun & Hc & Hk & Hs).
  exists w1. split; [done|].
  intros e c. unfold m_connected_slots, m_senders. rewrite Hs, Hc. intros Hin.
  assert (c ∈ m_connected_slots w e ∧ GetDest c ≠ R) as [Hold Hne].
  { unfold m_connected_slots. destruct (decide (e ∈ s)) as [He|He].
    - destruct (signals w !! e) as [l|]; simpl in *; [|by apply elem_of_nil in Hin].
      by apply list_elem_of_filter in Hin as [? ?].
    - split; [done|]. intros Hto. apply He.
      assert (c ∈ m_connected_slots w e) as Hold by done.
      specialize (Hinv e c Hold). unfold m_senders in Hinv.
      by rewrite Hto, HR in Hinv. }
  rewrite lookup_delete_ne by done. by apply Hinv.
Qed.

Lemma bookkeeping_Signal_delete w E l :
  bookkeeping w →
  signals w !! E = Some l →
  ∃ w1, Signal_delete E w = Ok w1 ∧ bookkeeping w1.
Proof.
  intros Hinv HE.
  destruct (Signal_delete_spec w E l HE (bookkeeping_targets_live w E Hinv))
    as (w1 & Hrun & Hs & Hk & Hc).
  exists w1. split; [done|].
  intros e c. unfold m_connected_slots, m_senders. rewrite Hs, Hc. intros Hin.
  destruct (decide (e = E)) as [->|Hne].
  { rewrite lookup_delete_eq in Hin. by apply elem_of_nil in Hin. }
  rewrite lookup_delete_ne in Hin by done.
  specialize (Hinv e c Hin). unfold m_senders in Hinv.
  case_decide; [|done].
  destruct (connectables w !! GetDest c) as [s|]; simpl in *; set_solver.
Qed.

Lemma bookkeeping_Connectable_copy w R R2 s :
  bookkeeping w →
  connectables w !! R = Some s →
  connectables w !! R2 = None →
  senders_live w R →
  ∃ w1, Connectable_copy R2 R w = Ok w1 ∧ bookkeeping w1.
Proof.
  intros Hinv HR HR2 Hsl.
  destruct (Connectable_copy_spec w R2 R s HR HR2 Hsl) as (w1 & Hrun & Hc & Hk & Hs).
  exists w1. split; [done|].
  assert (∀ e c, c ∈ m_connected_slots w e → e ∈ m_senders w1 (GetDest c)) as Hold.
  { intros e c Hin. pose proof (Hinv e c Hin) as He.
    destruct (bookkeeping_live w e c Hinv Hin) as [s' Hs'].
    unfold m_senders in *. rewrite Hc, lookup_insert_ne; [done|]. congruence. }
  intros e c. unfold m_connected_slots. rewrite Hs. intros Hin.
  destruct (decide (e ∈ s)) as [He|He]; [|by apply Hold].
  destruct (signals w !! e) as [l|] eqn:Hl; simpl in Hin; [|by apply elem_of_nil in Hin].
  unfold duplicated in Hin. apply elem_of_app in Hin as [Hin|Hin].
  - apply Hold. unfold m_connected_slots. by rewrite Hl.
  - apply list_elem_of_fmap in Hin as (c0 & -> & _). simpl.
    unfold m_senders, GetDest. simpl. rewrite Hc. by rewrite lookup_insert_eq.
Qed.

Lemma bookkeeping_Signal_copy w E E2 l :
  bookkeeping w →
  signals w !! E = Some l →
  signals w !! E2 = None →
  ∃ w1, Signal_copy E2 E w = Ok w1 ∧ bookkeeping w1.
Proof.
  intros Hinv HE HE2.
  destruct (Signal_copy_spec w E2 E l HE HE2 (bookkeeping_targets_live w E Hinv))
    as (w1 & Hrun & Hs & Hk & Hc).
  exists w1. split; [done|].
  assert (∀ c, c ∈ l → E ∈ m_senders w (GetDest c)) as HlE.
  { intros c Hin. apply Hinv. unfold m_connected_slots. by rewrite HE. }
  intros e c. unfold m_connected_slots, m_senders. rewrite Hs, Hc. intros Hin.
  destruct (decide (e = E2)) as [->|Hne].
  - rewrite lookup_insert_eq in Hin. simpl in Hin.
    rewrite decide_True by (apply list_elem_of_fmap; by exists c).
    specialize (HlE c Hin). unfold m_senders in HlE.
    destruct (connectables w !! GetDest c) as [s|]; simpl in *; set_solver.
  - rewrite lookup_insert_ne in Hin by done.
    specialize (Hinv e c Hin). unfold m_senders in Hinv.
    case_decide; [|done].
    destruct (connectables w !! GetDest c) as [s|]; simpl in *; set_solver.
Qed.

Lemma bookkeeping_Emit w E args l :
  bookkeeping w →
  signals w !! E = Some l →
  ∃ w1, Emit E args w = Ok w1 ∧ bookkeeping w1.
Proof.
  intros Hinv HE. eexists.
  split; [by apply (Emit_spec w E args l HE), bookkeeping_targets_live|].
  intros e c Hin. by apply Hinv.
Qed.

End Bookkeeping.

Lemma bookkeeping_connected_twice : bookkeeping connected_twice.
Proof.
  intros e c. unfold m_connected_slots, m_senders, connected_twice. simpl.
  destruct (decide (e = 1%positive)) as [->|Hne].
  - rewrite lookup_singleton_eq. simpl.
    intros Hc. apply elem_of_cons in Hc as [->|Hc].
    { simpl. rewrite lookup_singleton_eq. simpl. set_solver. }
    apply elem_of_cons in Hc as [->|Hc].
    { simpl. rewrite lookup_singleton_eq. simpl. set_solver. }
    by apply elem_of_nil in Hc.
  - rewrite lookup_singleton_ne by done. simpl. intros Hc. by apply elem_of_nil in Hc.
Qed.

(** C1, on the code: emitter 1 is connected to receiver 10 twice, with
    handlers 7 and 8, and the invariant holds.  [Disconnect(10)] erases the
    record with handler 7 and empties receiver 10's senders: the record with
    handler 8 still targets receiver 10, whose senders no longer hold
    emitter 1, so the invariant is lost.  Destroying receiver 10 then
    notifies nobody, the record stays, and [Emit] calls through it on the
    destroyed receiver. *)
Theorem Disconnect_breaks_bookkeeping :
  connect_twice = Ok connected_twice ∧
  bookkeeping connected_twice ∧
  Disconnect 1 10 connected_twice = Ok disconnected_once ∧
  m_connected_slots disconnected_once 1 = [ mkConnection 10 8 ] ∧
  m_senders disconnected_once 10 = ∅ ∧
  ¬ bookkeeping disconnected_once ∧
  (w ← Connectable_delete 10 disconnected_once; Emit 1 0 w) = Fail (Dangling 10).
Proof.
  split_and!.
  - vm_compute. reflexivity.
  - apply bookkeeping_connected_twice.
  - vm_compute. reflexivity.
  - reflexivity.
  - reflexivity.
  - intros Hinv. specialize (Hinv 1%positive (mkConnection 10 8)).
    assert ((1:positive) ∈ (∅ : gset positive)) as Hin; [|by apply not_elem_of_empty in Hin].
    apply Hinv. unfold m_connected_slots, disconnected_once. simpl. rewrite lookup_singleton_eq.
    simpl. by apply list_elem_of_singleton.
  - vm_compute. reflexivity.
Qed.

(** C2, on the code: after two [Connect]s of emitter 1 to receiver 10 and one
    [Disconnect], every object is live, emitter 1 still holds the record with
    handler 8 to receiver 10 and an [Emit] calls that handler on receiver 10:
    the emitter is connected to the receiver.  Receiver 10's senders are
    empty, so its destruction returns without a [SlotDisconnect] on emitter
    1: the emitter still holds one record to the destroyed receiver, not
    zero, and the next [Emit] calls through it.  The other direction holds
    here: destroying emitter 1 instead leaves it in no senders set, and
    receiver 10's destruction then returns. *)
Theorem destruction_after_Disconnect_dangles :
  (w ← connect_twice; Disconnect 1 10 w) = Ok disconnected_once ∧
  targets_live disconnected_once 1 ∧
  senders_live disconnected_once 10 ∧
  Emit 1 0 disconnected_once
  = Ok (mkWorld (connectables disconnected_once) (signals disconnected_once)
          [ mkCall 10 8 0 ]) ∧
  (∃ w2, Connectable_delete 10 disconnected_once = Ok w2 ∧
         connectables w2 !! 10%positive = None ∧
         records_to 10 (m_connected_slots w2 1) = [ mkConnection 10 8 ] ∧
         Emit 1 0 w2 = Fail (Dangling 10)) ∧
  (∃ w2 w3, Signal_delete 1 disconnected_once = Ok w2 ∧
            m_senders w2 10 = ∅ ∧
            Connectable_delete 10 w2 = Ok w3).
Proof.
  split_and!.
  - vm_compute. reflexivity.
  - compute_done.
  - compute_done.
  - vm_compute. reflexivity.
  - eexists. split; [vm_compute; reflexivity|]. split_and!.
    + reflexivity.
    + reflexivity.
    + vm_compute. reflexivity.
  - eexists _, _. split; [vm_compute; reflexivity|].
    split; [reflexivity|]. vm_compute. reflexivity.
Qed.

(** C5 as stated, at equal targets: on emitter 1 of [demo], which holds two
    records to receiver 10, [SlotDuplicate(10, 10)] does not return with one
    new record per match; its loop meets each record it appends as a new
    match and never reaches the end of the list. *)
Lemma SlotDuplicate_same_target_counterexample :
  SlotDuplicate 1 10 10 demo = Fail Diverges ∧
  SlotDuplicate 1 10 10 demo ≠ Ok (set_slots 1 (duplicated 10 10 demo_slots) demo) ∧
  ∀ fuel, SlotDuplicate_loop fuel 10 10 [] demo_slots = None.
Proof.
  split_and!.
  - vm_compute. reflexivity.
  - vm_compute. discriminate.
  - intros fuel. apply SlotDuplicate_loop_diverges.
    apply Exists_cons_tl, Exists_cons_hd. reflexivity.
Qed.

(** ** The theorems at work on [demo] *)

Lemma Disconnect_absent_Emit_empty_noop_witness :
  Disconnect 2 20 demo = Ok demo ∧ Emit 3 0 demo = Ok demo.
Proof.
  split.
  - apply (Disconnect_absent_Emit_empty_noop demo 2 20 0 [mkConnection 10 9]);
      reflexivity.
  - apply (Disconnect_absent_Emit_empty_noop demo 3 20 0 []); reflexivity.
Defined.

Lemma Disconnect_first_SlotDisconnect_all_witness :
  (∃ w1 l1 c l2,
      Disconnect 1 10 demo = Ok w1 ∧
      demo_slots = l1 ++ c :: l2 ∧ records_to 10 l1 = [] ∧ GetDest c = 10%positive ∧
      signals w1 !! 1%positive = Some (l1 ++ l2) ∧
      length (records_to 10 (l1 ++ l2)) = length (records_to 10 demo_slots) - 1) ∧
  (∃ w2,
      SlotDisconnect 1 10 demo = Ok w2 ∧
      signals w2 !! 1%positive = Some (records_not_to 10 demo_slots) ∧
      records_to 10 (records_not_to 10 demo_slots) = [] ∧
      records_to 20 (records_not_to 10 demo_slots) = records_to 20 demo_slots).
Proof.
  destruct (Disconnect_first_SlotDisconnect_all demo 1 10 demo_slots)
    as [Hfirst (w2 & Hrun & Hs & Hnil & Hother)].
  - reflexivity.
  - compute_done.
  - vm_compute. lia.
  - split; [exact Hfirst|]. exists w2.
    split_and!; [done|done|done|apply Hother; discriminate].
Defined.

Lemma SlotDisconnect_frame_witness :
  ∃ w1,
    SlotDisconnect 1 10 demo = Ok w1 ∧
    connectables w1 = connectables demo ∧ calls w1 = calls demo ∧
    signals w1 !! 2%positive = signals demo !! 2%positive ∧
    signals w1 !! 1%positive = Some (records_not_to 10 demo_slots) ∧
    1%positive ∈ m_senders w1 10 ∧ records_to 10 (m_connected_slots w1 1) = [] ∧
    ∃ w2, Connectable_DisconnectAll 10 demo = Ok w2 ∧
          connectables w2 !! 10%positive = Some ∅.
Proof.
  destruct (SlotDisconnect_frame demo 1 10 demo_slots)
    as (w1 & Hrun & Hc & Hk & Hothers & Hown & Hstale & Hall).
  - reflexivity.
  - exists w1. destruct Hstale as [Hin Hnil]; [compute_done|].
    split_and!; [done|done|done|apply Hothers; discriminate|done|done|done|].
    apply (Hall demo_senders); [reflexivity|compute_done].
Defined.

Lemma SlotDuplicate_appends_duplicates_witness :
  ∃ w1 added,
    SlotDuplicate 1 10 11 demo = Ok w1 ∧
    signals w1 !! 1%positive = Some (demo_slots ++ added) ∧
    Forall2 (fun c d => GetDest d = 11%positive ∧ m_pmemfun d = m_pmemfun c)
      (records_to 10 demo_slots) added ∧
    connectables w1 = connectables demo ∧ calls w1 = calls demo ∧
    signals w1 !! 2%positive = signals demo !! 2%positive.
Proof.
  destruct (SlotDuplicate_appends_duplicates demo 1 10 11 demo_slots)
    as (w1 & added & Hrun & Hown & Hadded & Hc & Hk & Hothers).
  - discriminate.
  - reflexivity.
  - exists w1, added.
    split_and!; [done|done|done|done|done|apply Hothers; discriminate].
Defined.

Lemma SignalConnect_idempotent_senders_unique_witness :
  SignalConnect 10 1 demo = Ok demo ∧
  ∃ w1,
    for_each (fun h => Connect 1 10 h) [3; 4] demo = Ok w1 ∧
    length (records_to 10 (m_connected_slots w1 1)) = length (records_to 10 demo_slots) + 2 ∧
    m_senders w1 10 = demo_senders ∧
    occurrences 1 (sender_order (m_senders w1 10)) = 1.
Proof.
  destruct (SignalConnect_idempotent_senders_unique demo 10 1 demo_senders demo_slots [3; 4])
    as [Hidem (w1 & Hrun & Hlen & Hsend & Hsame & Honce)].
  - reflexivity.
  - reflexivity.
  - assert (1%positive ∈ demo_senders) as Hin by compute_done.
    split; [by apply Hidem|]. exists w1.
    split_and!; [done|done|by apply Hsame|].
    apply Honce. by rewrite (Hsame Hin).
Defined.

Lemma Emit_dispatch_order_witness :
  ∃ w1 w2,
    for_each (fun c => Connect 1 (m_pobject c) (m_pmemfun c))
      [ mkConnection 10 4; mkConnection 20 3 ] demo = Ok w1 ∧
    signals w1 !! 1%positive
    = Some (demo_slots ++ [ mkConnection 10 4; mkConnection 20 3 ]) ∧
    Emit 1 42 w1 = Ok w2 ∧
    calls w2 = calls demo
               ++ invocations 42 (demo_slots ++ [ mkConnection 10 4; mkConnection 20 3 ]) ∧
    connectables w2 = connectables w1 ∧ signals w2 = signals w1.
Proof.
  apply (Emit_dispatch_order demo 1 demo_slots [ mkConnection 10 4; mkConnection 20 3 ] 42).
  - reflexivity.
  - compute_done.
  - compute_done.
Defined.

Lemma destruction_safety_witness :
  (∃ w1 w2,
      Connectable_delete 10 demo = Ok w1 ∧
      signals w1 !! 1%positive = Some (records_not_to 10 demo_slots) ∧
      records_to 10 (m_connected_slots w1 1) = [] ∧
      Emit 1 0 w1 = Ok w2 ∧
      calls w2 = calls demo ++ invocations 0 (records_not_to 10 demo_slots) ∧
      Forall (fun k => call_obj k ≠ 10%positive)
        (invocations 0 (records_not_to 10 demo_slots))) ∧
  (∃ w1 w2,
      Signal_delete 1 demo = Ok w1 ∧
      signals w1 !! 1%positive = None ∧
      m_senders w1 10 = m_senders demo 10 ∖ {[ 1%positive ]} ∧
      (1%positive ∉ sender_order (m_senders w1 10)) ∧
      Connectable_delete 10 w1 = Ok w2 ∧
      signals w2 !! 1%positive = None).
Proof.
  apply (destruction_safety demo 1 10 demo_slots 0).
  - reflexivity.
  - split; compute_done.
  - compute_done.
  - compute_done.
Defined.

Lemma Connectable_copy_duplicates_witness :
  ∃ w1 w2 w3,
    Connectable_copy 11 10 demo = Ok w1 ∧
    connectables w1 !! 11%positive = Some demo_senders ∧
    connectables w1 !! 10%positive = Some demo_senders ∧
    signals w1 !! 1%positive
    = Some (demo_slots ++ map (fun c => Duplicate c 11) (records_to 10 demo_slots)) ∧
    records_to 10 (m_connected_slots w1 1) = records_to 10 demo_slots ∧
    Emit 1 0 w1 = Ok w2 ∧
    calls w2 = calls demo ++ invocations 0 demo_slots
               ++ map (fun c => mkCall 11 (m_pmemfun c) 0) (records_to 10 demo_slots) ∧
    Connectable_delete 10 w1 = Ok w3 ∧
    connectables w3 !! 11%positive = Some demo_senders ∧
    records_to 11 (m_connected_slots w3 1) = records_to 11 (m_connected_slots w1 1).
Proof.
  destruct (Connectable_copy_duplicates demo 10 11 demo_senders 0)
    as (w1 & w3 & Hrun & Hnew & Hold & Hemitters & Hdel & Hkept & Hrecords).
  - reflexivity.
  - reflexivity.
  - compute_done.
  - destruct (Hemitters 1%positive demo_slots) as (Hlist & Hsame & Hemit).
    + compute_done.
    + reflexivity.
    + destruct Hemit as (w2 & Hemit & Hcalls); [compute_done|].
      exists w1, w2, w3. split_and!; done.
Defined.

Lemma Signal_copy_duplicates_witness :
  ∃ w1 w2 w2' w3,
    Signal_copy 4 1 demo = Ok w1 ∧
    signals w1 !! 4%positive = Some demo_slots ∧
    signals w1 !! 1%positive = Some demo_slots ∧
    m_senders w1 10 = {[ 4%positive ]} ∪ m_senders demo 10 ∧
    connectables w1 !! 30%positive = connectables demo !! 30%positive ∧
    Emit 1 0 w1 = Ok w2 ∧ calls w2 = calls demo ++ invocations 0 demo_slots ∧
    Emit 4 0 w1 = Ok w2' ∧ calls w2' = calls demo ++ invocations 0 demo_slots ∧
    Signal_delete 1 w1 = Ok w3 ∧
    signals w3 !! 4%positive = Some demo_slots ∧
    (4%positive ∈ m_senders w3 10 ↔ 4%positive ∈ m_senders w1 10).
Proof.
  destruct (Signal_copy_duplicates demo 1 4 demo_slots 0)
    as (w1 & w2 & w2' & w3 & Hrun & Hnew & Hold & Htargets & Hothers & Hrest).
  - reflexivity.
  - reflexivity.
  - compute_done.
  - exists w1, w2, w2', w3.
    destruct Hrest as (He1 & Hc1 & He2 & Hc2 & Hdel & Hkept & Hsenders).
    split_and!; [done|done|done| |
                 |done|done|done|done|done|done|done].
    + apply Htargets. compute_done.
    + apply Hothers. compute_done.
Defined.

(** ** Round trips and edge cases *)

Section RoundTrips.

Context {Args : Type}.
Implicit Types w : World Args.

Lemma world_ext w w' :
  connectables w = connectables w' → signals w = signals w' → calls w = calls w' →
  w = w'.
Proof. destruct w, w'. simpl. by intros -> -> ->. Qed.

Lemma sender_order_empty : sender_order ∅ = [].
Proof. unfold sender_order. by rewrite elements_empty. Qed.

Lemma records_not_to_id r l : records_to r l = [] → records_not_to r l = l.
Proof.
  intros Hl. apply records_to_nil_Forall in Hl. unfold records_not_to.
  induction Hl as [|c l Hc Hl IH]; [done|]. by rewrite filter_cons_True, IH.
Qed.

Lemma records_not_to_duplicates r r2 l :
  records_not_to r2 (map (fun c => Duplicate c r2) (records_to r l)) = [].
Proof.
  unfold records_not_to. induction (records_to r l) as [|c l' IH]; [done|].
  simpl. rewrite filter_cons_False; [done|]. simpl. by intros Hne.
Qed.

(** X1: [SignalDisconnect] of an emitter the set does not hold returns the world
    as it was, and undoes a [SignalConnect] of such an emitter; the set does
    not count: after [SignalConnect] of an emitter it already held, one
    [SignalDisconnect] takes the emitter out. *)
Theorem SignalConnect_SignalDisconnect_roundtrip w r e s :
  connectables w !! r = Some s →
  (e ∉ s → SignalDisconnect r e w = Ok w) ∧
  (e ∉ s → (w1 ← SignalConnect r e w; SignalDisconnect r e w1) = Ok w) ∧
  (e ∈ s → ∃ w2, (w1 ← SignalConnect r e w; SignalDisconnect r e w1) = Ok w2 ∧
                 m_senders w2 r = s ∖ {[e]}).
Proof.
  intros Hr. split_and!.
  - intros He. rewrite (SignalDisconnect_spec w r e s Hr). f_equal.
    apply world_ext; simpl; try done.
    apply insert_id. rewrite Hr. f_equal. set_solver.
  - intros He. rewrite (SignalConnect_spec w r e s Hr). res_step.
    rewrite (SignalDisconnect_spec _ r e ({[e]} ∪ s)) by (simpl; by rewrite lookup_insert_eq).
    f_equal. apply world_ext; simpl; try done.
    rewrite insert_insert_eq. apply insert_id. rewrite Hr. f_equal. set_solver.
  - intros He. rewrite (SignalConnect_spec w r e s Hr). res_step.
    rewrite (SignalDisconnect_spec _ r e ({[e]} ∪ s)) by (simpl; by rewrite lookup_insert_eq).
    eexists. split; [done|]. unfold m_senders. simpl.
    rewrite lookup_insert_eq. simpl. set_solver.
Qed.


(** X3: When the emitter already holds a record to the receiver, a [Connect]
    followed by a [Disconnect] does not take the new record back: the record
    erased is the oldest one to that receiver, the new one stays at the end
    of the list, and the receiver's senders lose the emitter. *)
Theorem Connect_Disconnect_erases_oldest w E R h l1 c l2 s :
  signals w !! E = Some (l1 ++ c :: l2) →
  records_to R l1 = [] →
  GetDest c = R →
  connectables w !! R = Some s →
  ∃ w2, (w1 ← Connect E R h w; Disconnect E R w1) = Ok w2 ∧
        signals w2 !! E = Some (l1 ++ l2 ++ [mkConnection R h]) ∧
        m_senders w2 R = s ∖ {[E]}.
Proof.
  intros HE Hl1 Hc HR. rewrite (Connect_spec w E R h _ s HE HR). res_step.
  rewrite (Disconnect_spec_found _ E R ((l1 ++ c :: l2) ++ [mkConnection R h])
             (l1 ++ l2 ++ [mkConnection R h]) ({[E]} ∪ s)).
  - eexists. split; [done|]. unfold m_senders. simpl. rewrite !lookup_insert_eq.
    split; [done|]. simpl. set_solver.
  - simpl. by rewrite lookup_insert_eq.
  - apply Disconnect_loop_Some. exists l1, c, (l2 ++ [mkConnection R h]).
    split_and!; try done. by rewrite <-app_assoc.
  - simpl. by rewrite lookup_insert_eq.
Qed.

(** X4: [SlotDuplicate] on an emitter with no record to the old target returns
    the world as it was, whatever the new target; with the old target as the
    new one it fails to return exactly when the emitter holds a record to
    it. *)
Theorem SlotDuplicate_diverges_iff w E R l :
  signals w !! E = Some l →
  (records_to R l = [] → ∀ R2, SlotDuplicate E R R2 w = Ok w) ∧
  (SlotDuplicate E R R w = Fail Diverges ↔ records_to R l ≠ []).
Proof.
  intros HE.
  assert (records_to R l = [] → ∀ R2, SlotDuplicate E R R2 w = Ok w) as Hnone.
  { intros Hl R2. unfold SlotDuplicate, slots_of. rewrite HE. res_step.
    rewrite SlotDuplicate_loop_ends; [|by right|].
    - unfold duplicated. rewrite Hl. simpl. rewrite app_nil_r. f_equal.
      apply world_ext; simpl; try done. by apply insert_id.
    - rewrite Hl. unfold SlotDuplicate_fuel. simpl. lia. }
  split; [done|]. split.
  - intros Hdiv Hl. by rewrite (Hnone Hl R) in Hdiv.
  - intros Hl. unfold SlotDuplicate, slots_of. rewrite HE. res_step.
    rewrite SlotDuplicate_loop_diverges; [done|].
    by destruct (records_to_nil_or_Exists R l).
Qed.

(** X5: A second [Connectable::DisconnectAll] finds nothing to do: after the
    first, the senders set is empty, the receiver is still live, no former
    sender holds a record to it, and a second call returns the same world. *)
Theorem Connectable_DisconnectAll_twice w r s :
  connectables w !! r = Some s →
  senders_live w r →
  ∃ w1, Connectable_DisconnectAll r w = Ok w1 ∧
        connectables w1 !! r = Some ∅ ∧
        (∀ e, e ∈ s → records_to r (m_connected_slots w1 e) = []) ∧
        Connectable_DisconnectAll r w1 = Ok w1.
Proof.
  intros Hr Hlive.
  destruct (Connectable_DisconnectAll_spec w r s Hr Hlive) as (w1 & Hrun & Hc & Hk & Hs).
  assert (connectables w1 !! r = Some ∅) as Hr1.
  { rewrite Hc. by rewrite lookup_insert_eq. }
  exists w1. split_and!; try done.
  - intros e He. unfold m_connected_slots. rewrite Hs, decide_True by done.
    destruct (signals w !! e); simpl; [apply records_to_not_to|done].
  - unfold Connectable_DisconnectAll, senders_of. rewrite Hr1. res_step.
    rewrite sender_order_empty. simpl. f_equal.
    apply world_ext; simpl; try done. by apply insert_id.
Qed.

(** X6: After [Signal::DisconnectAll] the emitter is live with an empty list, no
    receiver it pointed at lists it, the other receivers are untouched, an
    [Emit] calls nothing and a second [DisconnectAll] changes nothing. *)
Theorem Signal_DisconnectAll_twice w e l args :
  signals w !! e = Some l →
  targets_live w e →
  ∃ w1, Signal_DisconnectAll e w = Ok w1 ∧
        signals w1 !! e = Some [] ∧
        (∀ r, r ∈ map GetDest l → m_senders w1 r = m_senders w r ∖ {[e]}) ∧
        (∀ r, r ∉ map GetDest l → connectables w1 !! r = connectables w !! r) ∧
        Emit e args w1 = Ok w1 ∧
        Signal_DisconnectAll e w1 = Ok w1.
Proof.
  intros He Hlive.
  destruct (Signal_DisconnectAll_spec w e l He Hlive) as (w1 & Hrun & Hs & Hk & Hc).
  assert (signals w1 !! e = Some []) as He1.
  { rewrite Hs. by rewrite lookup_insert_eq. }
  exists w1. split_and!; try done.
  - intros r Hr. unfold m_senders. rewrite Hc, decide_True by done.
    destruct (connectables w !! r); simpl; [done|set_solver].
  - intros r Hr. by rewrite Hc, decide_False.
  - unfold Emit, slots_of. by rewrite He1.
  - unfold Signal_DisconnectAll, slots_of. rewrite He1. res_step. simpl. f_equal.
    apply world_ext; simpl; try done. by apply insert_id.
Qed.

(** X7: Copying an emitter to an address no targeted receiver lists, and
    destroying the copy, gives back the world before the copy. *)
Theorem Signal_copy_delete_roundtrip w E E2 l :
  signals w !! E = Some l →
  signals w !! E2 = None →
  targets_live w E →
  Forall (fun c => E2 ∉ m_senders w (GetDest c)) l →
  (w1 ← Signal_copy E2 E w; Signal_delete E2 w1) = Ok w.
Proof.
  intros HE HE2 Htl Hfresh.
  destruct (Signal_copy_spec w E2 E l HE HE2 Htl) as (w1 & Hrun & Hs & Hk & Hc).
  assert (signals w1 !! E2 = Some l) as HE21.
  { rewrite Hs. by rewrite lookup_insert_eq. }
  assert (targets_live w1 E2) as Htl1.
  { unfold targets_live, m_connected_slots in *. rewrite HE21. rewrite HE in Htl.
    simpl in *. eapply Forall_impl; [exact Htl|]. intros c Hc'.
    unfold live_connectable. rewrite Hc. case_decide; [|done]. by apply fmap_is_Some. }
  destruct (Signal_delete_spec w1 E2 l HE21 Htl1) as (w2 & Hrun2 & Hs2 & Hk2 & Hc2).
  rewrite Hrun. res_step. rewrite Hrun2. f_equal.
  apply world_ext.
  - apply map_eq. intros r. rewrite Hc2, Hc.
    destruct (decide (r ∈ map GetDest l)) as [Hr|Hr]; [|done].
    destruct (connectables w !! r) as [s|] eqn:Hs'; simpl; [|done]. f_equal.
    apply list_elem_of_fmap in Hr as (c & -> & Hcl).
    pose proof (proj1 (Forall_forall _ _) Hfresh c Hcl) as Hnot.
    unfold m_senders in Hnot. rewrite Hs' in Hnot. simpl in Hnot. set_solver.
  - rewrite Hs2, Hs. rewrite delete_insert_eq. by apply delete_id.
  - by rewrite Hk2, Hk.
Qed.

(** X8: Copying a receiver to an address none of its senders holds a record to,
    and destroying the copy, gives back the world before the copy. *)
Theorem Connectable_copy_delete_roundtrip w R R2 s :
  connectables w !! R = Some s →
  connectables w !! R2 = None →
  senders_live w R →
  set_Forall (fun e => records_to R2 (m_connected_slots w e) = []) s →
  (w1 ← Connectable_copy R2 R w; Connectable_delete R2 w1) = Ok w.
Proof.
  intros HR HR2 Hsl Hfresh.
  destruct (Connectable_copy_spec w R2 R s HR HR2 Hsl) as (w1 & Hrun & Hc & Hk & Hs).
  assert (connectables w1 !! R2 = Some s) as HR21.
  { rewrite Hc. by rewrite lookup_insert_eq. }
  assert (senders_live w1 R2) as Hsl1.
  { intros e He. unfold m_senders in He. rewrite HR21 in He. simpl in He.
    unfold live_signal. rewrite Hs, decide_True by done.
    apply fmap_is_Some. apply Hsl. unfold m_senders. by rewrite HR. }
  destruct (Connectable_delete_spec w1 R2 s HR21 Hsl1) as (w2 & Hrun2 & Hc2 & Hk2 & Hs2).
  rewrite Hrun. res_step. rewrite Hrun2. f_equal.
  apply world_ext.
  - rewrite Hc2, Hc. rewrite delete_insert_eq. by apply delete_id.
  - apply map_eq. intros e. rewrite Hs2, Hs.
    destruct (decide (e ∈ s)) as [He|He]; [|done].
    destruct (signals w !! e) as [l|] eqn:Hl; simpl; [|done]. f_equal.
    specialize (Hfresh e He). unfold m_connected_slots in Hfresh.
    rewrite Hl in Hfresh. simpl in Hfresh.
    unfold duplicated, records_not_to. rewrite filter_app.
    fold (records_not_to R2 l).
    fold (records_not_to R2 (map (fun c => Duplicate c R2) (records_to R l))).
    by rewrite records_not_to_id, records_not_to_duplicates, app_nil_r.
  - by rewrite Hk2, Hk.
Qed.

End RoundTrips.

(** ** Programs that keep both sides in step *)

Section Consistency.

Context {Args : Type}.
Implicit Types w : World Args.

Lemma Exists_slots_live w e (P : Connection → Prop) :
  Exists P (m_connected_slots w e) → live_signal w e.
Proof.
  unfold m_connected_slots, live_signal.
  destruct (signals w !! e); [by eauto|]. simpl. intros Hex. by apply Exists_nil in Hex.
Qed.

Lemma registered_live w r e : registered w → e ∈ m_senders w r → live_signal w e.
Proof. intros Hreg He. by eapply Exists_slots_live, Hreg. Qed.

Lemma registered_senders_live w r : registered w → senders_live w r.
Proof. intros Hreg e He. by apply (registered_live w r). Qed.

Lemma registered_target w r e l :
  registered w → signals w !! e = Some l → e ∈ m_senders w r → r ∈ map GetDest l.
Proof.
  intros Hreg He Hin. apply Exists_target_elem_of.
  specialize (Hreg r e Hin). unfold m_connected_slots in Hreg. by rewrite He in Hreg.
Qed.

Lemma Exists_records_not_to r r' l :
  r' ≠ r → Exists (fun c => GetDest c = r') l →
  Exists (fun c => GetDest c = r') (records_not_to r l).
Proof.
  intros Hne Hex. apply Exists_exists in Hex as (c & Hc & Hto).
  apply Exists_exists. exists c. split; [|done].
  apply list_elem_of_filter. split; [congruence|done].
Qed.

Lemma consistent_Signal_new w e :
  consistent w → signals w !! e = None →
  ∃ w1, Signal_new e w = Ok w1 ∧ consistent w1.
Proof.
  intros [Hbook Hreg] He. unfold Signal_new. rewrite He. eexists. split; [done|].
  assert (∀ e', e' ≠ e →
            m_connected_slots (set_slots e [] w) e' = m_connected_slots w e') as Hother.
  { intros e' Hne. unfold m_connected_slots. simpl. by rewrite lookup_insert_ne. }
  split.
  - intros e' c. destruct (decide (e' = e)) as [->|Hne].
    + unfold m_connected_slots. simpl. rewrite lookup_insert_eq. simpl.
      intros Hc. by apply elem_of_nil in Hc.
    + rewrite Hother by done. apply Hbook.
  - intros r e' Hin. rewrite Hother; [by apply Hreg|].
    intros ->. destruct (registered_live w r e Hreg Hin) as [l Hl]. congruence.
Qed.

Lemma consistent_Connectable_new w r :
  consistent w → connectables w !! r = None →
  ∃ w1, Connectable_new r w = Ok w1 ∧ consistent w1.
Proof.
  intros [Hbook Hreg] Hr. unfold Connectable_new. rewrite Hr. eexists. split; [done|].
  split.
  - intros e c Hc. pose proof (Hbook e c Hc) as Hin.
    destruct (bookkeeping_live w e c Hbook Hc) as [s Hs].
    unfold m_senders in *. simpl. rewrite lookup_insert_ne; [done|]. congruence.
  - intros r' e. unfold m_senders. simpl.
    destruct (decide (r' = r)) as [->|Hne].
    + rewrite lookup_insert_eq. simpl. intros Hin. by apply not_elem_of_empty in Hin.
    + rewrite lookup_insert_ne by done. apply Hreg.
Qed.

Lemma registered_Connect w E R h l s :
  registered w →
  signals w !! E = Some l →
  connectables w !! R = Some s →
  registered (mkWorld (<[R := {[E]} ∪ s]> (connectables w))
                (<[E := l ++ [mkConnection R h]]> (signals w)) (calls w)).
Proof.
  intros Hreg HE HR r e. unfold m_senders, m_connected_slots. simpl. intros Hin.
  assert (e = E ∧ r = R ∨ e ∈ m_senders w r) as [[-> ->]|Hold].
  { destruct (decide (r = R)) as [->|Hne].
    - rewrite lookup_insert_eq in Hin. simpl in Hin.
      apply elem_of_union in Hin as [Hin|Hin].
      + left. apply elem_of_singleton in Hin. done.
      + right. unfold m_senders. by rewrite HR.
    - right. unfold m_senders. by rewrite lookup_insert_ne in Hin. }
  - rewrite lookup_insert_eq. simpl. apply Exists_app. right. by apply Exists_cons_hd.
  - specialize (Hreg r e Hold). unfold m_connected_slots in Hreg.
    destruct (decide (e = E)) as [->|Hne].
    + rewrite lookup_insert_eq. simpl. rewrite HE in Hreg. apply Exists_app. by left.
    + by rewrite lookup_insert_ne.
Qed.

Lemma consistent_Connect w E R h :
  consistent w → live_signal w E → live_connectable w R →
  ∃ w1, Connect E R h w = Ok w1 ∧ consistent w1.
Proof.
  intros [Hbook Hreg] [l HE] [s HR].
  destruct (bookkeeping_Connect w E R h l s Hbook HE HR) as (w1 & Hrun & Hbook1).
  exists w1. split; [done|]. split; [done|].
  rewrite (Connect_spec w E R h l s HE HR) in Hrun. injection Hrun as <-.
  by apply registered_Connect.
Qed.

Lemma consistent_Disconnect w E R :
  consistent w →
  live_signal w E →
  length (records_to R (m_connected_slots w E)) ≤ 1 →
  ∃ w1, Disconnect E R w = Ok w1 ∧ consistent w1.
Proof.
  intros [Hbook Hreg] [l HE] Hk. unfold m_connected_slots in Hk. rewrite HE in Hk.
  simpl in Hk.
  destruct (records_to R l) as [|c0 [|c1 rest]] eqn:Hrec; [| |simpl in Hk; lia].
  { exists w. split; [|done]. by apply (Disconnect_spec_absent w E R l). }
  destruct (bookkeeping_Disconnect_last w E R l Hbook HE) as (w1 & Hrun & Hbook1).
  { by rewrite Hrec. }
  exists w1. split; [done|]. split; [done|].
  destruct (Disconnect_loop R l) as [l'|] eqn:Hloop;
    [|apply Disconnect_loop_None in Hloop; congruence].
  pose proof Hloop as Hsplit.
  apply Disconnect_loop_Some in Hsplit as (l1 & c & l2 & -> & H1 & Hc & ->).
  assert (live_connectable w R) as [s HR].
  { rewrite <-Hc. apply (bookkeeping_live w E); [done|].
    unfold m_connected_slots. rewrite HE. simpl. set_solver. }
  rewrite (Disconnect_spec_found w E R _ _ s HE Hloop HR) in Hrun. injection Hrun as <-.
  intros r e. unfold m_senders, m_connected_slots. simpl. intros Hin.
  assert (e ∈ m_senders w r ∧ (e = E → r ≠ R)) as [Hold Hne].
  { unfold m_senders. destruct (decide (r = R)) as [->|Hr].
    - rewrite lookup_insert_eq in Hin. simpl in Hin. rewrite HR. simpl. set_solver.
    - by rewrite lookup_insert_ne in Hin. }
  specialize (Hreg r e Hold). unfold m_connected_slots in Hreg.
  destruct (decide (e = E)) as [->|HeE]; [|by rewrite lookup_insert_ne].
  rewrite lookup_insert_eq. simpl. rewrite HE in Hreg. simpl in Hreg.
  apply Exists_app in Hreg as [Hreg|Hreg]; apply Exists_app; [by left|right].
  apply Exists_cons in Hreg as [Hreg|Hreg]; [|done].
  exfalso. apply (Hne eq_refl). congruence.
Qed.

Lemma registered_after_signal_gone w w1 E l (keep : bool) :
  registered w →
  signals w !! E = Some l →
  (∀ e, e ≠ E → signals w1 !! e = signals w !! e) →
  (∀ r, connectables w1 !! r =
        if decide (r ∈ map GetDest l)
        then (fun s => s ∖ {[E]}) <$> connectables w !! r
        else connectables w !! r) →
  registered w1.
Proof.
  intros Hreg HE Hs Hc r e. unfold m_senders. rewrite Hc. intros Hin.
  assert (e ∈ m_senders w r ∧ e ≠ E) as [Hold Hne].
  { unfold m_senders. destruct (decide (r ∈ map GetDest l)) as [Hr|Hr].
    - destruct (connectables w !! r); simpl in *; [set_solver|done].
    - split; [done|]. intros ->. apply Hr.
      apply (registered_target w r E l); [done|done|]. by unfold m_senders. }
  specialize (Hreg r e Hold). unfold m_connected_slots in *. by rewrite Hs.
Qed.

Lemma consistent_Signal_delete w E :
  consistent w → live_signal w E →
  ∃ w1, Signal_delete E w = Ok w1 ∧ consistent w1.
Proof.
  intros [Hbook Hreg] [l HE].
  destruct (bookkeeping_Signal_delete w E l Hbook HE) as (w1 & Hrun & Hbook1).
  exists w1. split; [done|]. split; [done|].
  destruct (Signal_delete_spec w E l HE (bookkeeping_targets_live w E Hbook))
    as (w1' & Hrun' & Hs & Hk & Hc).
  rewrite Hrun in Hrun'. injection Hrun' as <-.
  apply (registered_after_signal_gone w w1 E l true); try done.
  intros e Hne. rewrite Hs. by rewrite lookup_delete_ne.
Qed.

Lemma consistent_Signal_DisconnectAll w E :
  consistent w → live_signal w E →
  ∃ w1, Signal_DisconnectAll E w = Ok w1 ∧ consistent w1.
Proof.
  intros [Hbook Hreg] [l HE].
  destruct (Signal_DisconnectAll_spec w E l HE (bookkeeping_targets_live w E Hbook))
    as (w1 & Hrun & Hs & Hk & Hc).
  exists w1. split; [done|]. split.
  - intros e c. unfold m_connected_slots, m_senders. rewrite Hs, Hc. intros Hin.
    destruct (decide (e = E)) as [->|Hne].
    { rewrite lookup_insert_eq in Hin. by apply elem_of_nil in Hin. }
    rewrite lookup_insert_ne in Hin by done.
    specialize (Hbook e c Hin). unfold m_senders in Hbook.
    case_decide; [|done].
    destruct (connectables w !! GetDest c) as [s|]; simpl in *; set_solver.
  - apply (registered_after_signal_gone w w1 E l false); try done.
    intros e Hne. rewrite Hs. by rewrite lookup_insert_ne.
Qed.

Lemma registered_after_receiver_gone w w1 R s :
  registered w →
  connectables w !! R = Some s →
  (∀ r, r ≠ R → connectables w1 !! r = connectables w !! r) →
  m_senders w1 R = ∅ →
  (∀ e, signals w1 !! e =
        if decide (e ∈ s) then records_not_to R <$> signals w !! e
        else signals w !! e) →
  registered w1.
Proof.
  intros Hreg HR Hc HR1 Hs r e Hin.
  destruct (decide (r = R)) as [->|Hne].
  { rewrite HR1 in Hin. by apply not_elem_of_empty in Hin. }
  unfold m_senders in Hin. rewrite Hc in Hin by done.
  specialize (Hreg r e Hin). unfold m_connected_slots in *. rewrite Hs.
  destruct (decide (e ∈ s)); [|done].
  destruct (signals w !! e); simpl in *; [|done]. by apply Exists_records_not_to.
Qed.

Lemma consistent_Connectable_delete w R :
  consistent w → live_connectable w R →
  ∃ w1, Connectable_delete R w = Ok w1 ∧ consistent w1.
Proof.
  intros [Hbook Hreg] [s HR].
  pose proof (registered_senders_live w R Hreg) as Hsl.
  destruct (bookkeeping_Connectable_delete w R s Hbook HR Hsl) as (w1 & Hrun & Hbook1).
  exists w1. split; [done|]. split; [done|].
  destruct (Connectable_delete_spec w R s HR Hsl) as (w1' & Hrun' & Hc & Hk & Hs).
  rewrite Hrun in Hrun'. injection Hrun' as <-.
  apply (registered_after_receiver_gone w w1 R s); try done.
  - intros r Hne. rewrite Hc. by rewrite lookup_delete_ne.
  - unfold m_senders. rewrite Hc. by rewrite lookup_delete_eq.
Qed.

Lemma consistent_Connectable_DisconnectAll w R :
  consistent w → live_connectable w R →
  ∃ w1, Connectable_DisconnectAll R w = Ok w1 ∧ consistent w1.
Proof.
  intros [Hbook Hreg] [s HR].
  pose proof (registered_senders_live w R Hreg) as Hsl.
  destruct (Connectable_DisconnectAll_spec w R s HR Hsl) as (w1 & Hrun & Hc & Hk & Hs).
  exists w1. split; [done|]. split.
  - intros e c. unfold m_connected_slots, m_senders. rewrite Hs, Hc. intros Hin.
    assert (c ∈ m_connected_slots w e ∧ GetDest c ≠ R) as [Hold Hne].
    { unfold m_connected_slots. destruct (decide (e ∈ s)) as [He|He].
      - destruct (signals w !! e) as [l|]; simpl in *; [|by apply elem_of_nil in Hin].
        by apply list_elem_of_filter in Hin as [? ?].
      - split; [done|]. intros Hto. apply He.
        assert (c ∈ m_connected_slots w e) as Hold by done.
        specialize (Hbook e c Hold). unfold m_senders in Hbook.
        by rewrite Hto, HR in Hbook. }
    rewrite lookup_insert_ne by done. by apply Hbook.
  - apply (registered_after_receiver_gone w w1 R s); try done.
    + intros r Hne. rewrite Hc. by rewrite lookup_insert_ne.
    + unfold m_senders. rewrite Hc. by rewrite lookup_insert_eq.
Qed.

Lemma consistent_Connectable_copy w R2 R :
  consistent w → live_connectable w R → connectables w !! R2 = None →
  ∃ w1, Connectable_copy R2 R w = Ok w1 ∧ consistent w1.
Proof.
  intros [Hbook Hreg] [s HR] HR2.
  pose proof (registered_senders_live w R Hreg) as Hsl.
  destruct (bookkeeping_Connectable_copy w R R2 s Hbook HR HR2 Hsl) as (w1 & Hrun & Hbook1).
  exists w1. split; [done|]. split; [done|].
  destruct (Connectable_copy_spec w R2 R s HR HR2 Hsl) as (w1' & Hrun' & Hc & Hk & Hs).
  rewrite Hrun in Hrun'. injection Hrun' as <-.
  intros r e. unfold m_senders, m_connected_slots. rewrite Hc, Hs. intros Hin.
  destruct (decide (r = R2)) as [->|Hne].
  - rewrite lookup_insert_eq in Hin. simpl in Hin. rewrite decide_True by done.
    assert (e ∈ m_senders w R) as HinR by (unfold m_senders; by rewrite HR).
    specialize (Hreg R e HinR). unfold m_connected_slots in Hreg.
    destruct (signals w !! e) as [l|]; simpl in *; [|by apply Exists_nil in Hreg].
    unfold duplicated. apply Exists_app. right.
    apply Exists_exists in Hreg as (c & Hcl & Hto).
    apply Exists_exists. exists (Duplicate c R2). split; [|done].
    apply list_elem_of_fmap. exists c. split; [done|].
    by apply list_elem_of_filter.
  - rewrite lookup_insert_ne in Hin by done.
    specialize (Hreg r e Hin). unfold m_connected_slots in Hreg.
    destruct (decide (e ∈ s)); [|done].
    destruct (signals w !! e) as [l|]; simpl in *; [|done].
    unfold duplicated. apply Exists_app. by left.
Qed.

Lemma consistent_Signal_copy w E2 E :
  consistent w → live_signal w E → signals w !! E2 = None →
  ∃ w1, Signal_copy E2 E w = Ok w1 ∧ consistent w1.
Proof.
  intros [Hbook Hreg] [l HE] HE2.
  destruct (bookkeeping_Signal_copy w E E2 l Hbook HE HE2) as (w1 & Hrun & Hbook1).
  exists w1. split; [done|]. split; [done|].
  destruct (Signal_copy_spec w E2 E l HE HE2 (bookkeeping_targets_live w E Hbook))
    as (w1' & Hrun' & Hs & Hk & Hc).
  rewrite Hrun in Hrun'. injection Hrun' as <-.
  intros r e. unfold m_senders, m_connected_slots. rewrite Hc, Hs. intros Hin.
  assert (e = E2 ∧ r ∈ map GetDest l ∨ e ≠ E2 ∧ e ∈ m_senders w r) as [[-> Hr]|[Hne Hold]].
  { assert (e ∈ m_senders w r → e ≠ E2) as Hlive.
    { intros Hold ->. destruct (registered_live w r E2 Hreg Hold) as [l2 Hl2]. congruence. }
    unfold m_senders in *. destruct (decide (r ∈ map GetDest l)) as [Hr|Hr].
    - destruct (connectables w !! r) as [s|]; simpl in *; [|done].
      apply elem_of_union in Hin as [Hin|Hin].
      + left. apply elem_of_singleton in Hin. done.
      + right. split; [by apply Hlive|done].
    - right. split; [by apply Hlive|done]. }
  - rewrite lookup_insert_eq. simpl.
    apply list_elem_of_fmap in Hr as (c & -> & Hcl).
    apply Exists_exists. by exists c.
  - rewrite lookup_insert_ne by done. by apply Hreg.
Qed.

(** One permitted call in a consistent world returns, in a consistent
    world. *)
Lemma exec_consistent w c :
  consistent w → permitted w c → ∃ w1, exec c w = Ok w1 ∧ consistent w1.
Proof.
  intros Hcons Hperm. destruct c; simpl in *.
  - by apply consistent_Signal_new.
  - by apply consistent_Connectable_new.
  - destruct Hperm. by apply consistent_Signal_copy.
  - destruct Hperm. by apply consistent_Connectable_copy.
  - by apply consistent_Signal_delete.
  - by apply consistent_Connectable_delete.
  - destruct Hperm. by apply consistent_Connect.
  - destruct Hperm. by apply consistent_Disconnect.
  - destruct Hperm as [l Hl]. destruct Hcons as [Hbook Hreg].
    destruct (bookkeeping_Emit w e args l Hbook Hl) as (w1 & Hrun & Hbook1).
    exists w1. split; [done|]. split; [done|].
    rewrite (Emit_spec w e args l Hl (bookkeeping_targets_live w e Hbook)) in Hrun.
    injection Hrun as <-. done.
  - destruct Hperm as [l Hl]. destruct Hcons as [Hbook Hreg]. unfold Signal_call.
    rewrite (Emit_spec w e args l Hl (bookkeeping_targets_live w e Hbook)).
    eexists. split; [done|]. split; [|done]. intros e' c' Hin. by apply Hbook.
  - by apply consistent_Signal_DisconnectAll.
  - by apply consistent_Connectable_DisconnectAll.
Qed.

Lemma permitted_allb_sound w cs : permitted_allb w cs = true → permitted_all w cs.
Proof.
  revert w. induction cs as [|c cs IH]; intros w Hb; [done|].
  simpl in Hb. apply andb_true_iff in Hb as [Hc Hrest].
  apply bool_decide_eq_true in Hc. split; [done|].
  intros w1 Hrun. rewrite Hrun in Hrest. by apply IH.
Qed.

(** X9: A program of permitted calls, started in a consistent world, runs to its
    end: no call goes through a dangling pointer, no loop fails to stop, and
    the world it ends in is consistent again.  The permitted calls are the
    constructors, copy constructors and destructors of both classes,
    [Connect], [Emit], [operator()], both [DisconnectAll]s, and [Disconnect]
    of a receiver the emitter holds at most one record to.  That every call
    returns is what is proved: [permitted_all] asks it of none. *)
Theorem permitted_program_runs w cs :
  consistent w →
  permitted_all w cs →
  ∃ w1, for_each exec cs w = Ok w1 ∧ consistent w1.
Proof.
  revert w. induction cs as [|c cs IH]; intros w Hcons Hperm.
  - exists w. by split.
  - destruct Hperm as [Hc Hrest].
    destruct (exec_consistent w c Hcons Hc) as (w1 & Hrun & Hcons1).
    destruct (IH w1 Hcons1 (Hrest w1 Hrun)) as (w2 & Hrun2 & Hcons2).
    exists w2. split; [|done]. rewrite for_each_cons, Hrun. by res_step.
Qed.

End Consistency.

(** ** After a destructor, and the two ways to a dangling pointer *)

Section Destruction.

Context {Args : Type}.
Implicit Types w : World Args.

(** [bookkeeping] and [registered], checked record by record and sender by
    sender. *)
Lemma bookkeeping_check w :
  map_Forall (fun e l => Forall (fun c => e ∈ m_senders w (GetDest c)) l) (signals w) →
  bookkeeping w.
Proof.
  intros Hall e c. unfold m_connected_slots.
  destruct (signals w !! e) as [l|] eqn:Hl; simpl; [|by intros ?%elem_of_nil].
  intros Hc. by apply (proj1 (Forall_forall _ _) (Hall e l Hl)).
Qed.

Lemma registered_check w :
  map_Forall (fun r s =>
      set_Forall (fun e => Exists (fun c => GetDest c = r) (m_connected_slots w e)) s)
    (connectables w) →
  registered w.
Proof.
  intros Hall r e. unfold m_senders at 1.
  destruct (connectables w !! r) as [s|] eqn:Hs; simpl; [|by intros ?%not_elem_of_empty].
  intros He. by apply (Hall r s Hs).
Qed.

(** X10: In a consistent world, destroying a live receiver succeeds and leaves no
    record to it in any emitter: whatever emitter is asked to [Emit]
    afterwards, the call returns and calls handlers on live receivers only. *)
Theorem destroyed_receiver_never_called w R :
  consistent w →
  live_connectable w R →
  ∃ w1, Connectable_delete R w = Ok w1 ∧
        connectables w1 !! R = None ∧
        ∀ e l1 args, signals w1 !! e = Some l1 →
          records_to R l1 = [] ∧
          Forall (fun c => live_connectable w1 (GetDest c)) l1 ∧
          Emit e args w1
          = Ok (mkWorld (connectables w1) (signals w1) (calls w1 ++ invocations args l1)).
Proof.
  intros Hcons [s HR].
  destruct (consistent_Connectable_delete w R Hcons) as (w1 & Hrun & Hbook1 & Hreg1);
    [by exists s|].
  destruct Hcons as [Hbook Hreg].
  destruct (Connectable_delete_spec w R s HR (registered_senders_live w R Hreg))
    as (w1' & Hrun' & Hc & _).
  rewrite Hrun in Hrun'. injection Hrun' as <-.
  assert (connectables w1 !! R = None) as HR1.
  { rewrite Hc. apply lookup_delete_eq. }
  exists w1. split_and!; try done.
  intros e l1 args Hl1.
  pose proof (bookkeeping_targets_live w1 e Hbook1) as Htl.
  assert (Forall (fun c => live_connectable w1 (GetDest c)) l1) as Hlive.
  { unfold targets_live, m_connected_slots in Htl. by rewrite Hl1 in Htl. }
  split_and!; try done.
  - apply records_to_nil_Forall. eapply Forall_impl; [exact Hlive|].
    intros c [s' Hs'] Hto. simpl in Hto. congruence.
  - by apply Emit_spec.
Qed.

(** X11: In a consistent world, destroying a live emitter succeeds and leaves it
    in no senders set: every receiver can be destroyed afterwards without a
    call on the destroyed emitter. *)
Theorem destroyed_signal_never_notified w E :
  consistent w →
  live_signal w E →
  ∃ w1, Signal_delete E w = Ok w1 ∧
        signals w1 !! E = None ∧
        (∀ r, E ∉ m_senders w1 r) ∧
        ∀ r, live_connectable w1 r → ∃ w2, Connectable_delete r w1 = Ok w2.
Proof.
  intros Hcons [l HE].
  destruct (consistent_Signal_delete w E Hcons) as (w1 & Hrun & Hcons1); [by exists l|].
  destruct Hcons as [Hbook Hreg].
  destruct (Signal_delete_spec w E l HE (bookkeeping_targets_live w E Hbook))
    as (w1' & Hrun' & Hs & _).
  rewrite Hrun in Hrun'. injection Hrun' as <-.
  assert (signals w1 !! E = None) as HE1.
  { rewrite Hs. apply lookup_delete_eq. }
  exists w1. split_and!; try done.
  - intros r Hin. destruct Hcons1 as [_ Hreg1].
    destruct (registered_live w1 r E Hreg1 Hin) as [l' Hl']. congruence.
  - intros r Hr. destruct (consistent_Connectable_delete w1 r Hcons1 Hr) as (w2 & Hrun2 & _).
    by exists w2.
Qed.

(** A pass of [Emit] over a list with a record to a receiver that is gone,
    all other targets being live, stops at that record. *)
Lemma Emit_loop_dangles args R l w :
  connectables w !! R = None →
  Forall (fun c => GetDest c = R ∨ live_connectable w (GetDest c)) l →
  Exists (fun c => GetDest c = R) l →
  for_each (Connection_Emit args) l w = Fail (Dangling R).
Proof.
  intros HR. revert w HR. induction l as [|c l IH]; intros w HR Hl Hex.
  { by apply Exists_nil in Hex. }
  apply Forall_cons in Hl as [Hc Hl]. rewrite for_each_cons.
  destruct (decide (GetDest c = R)) as [Hto|Hto].
  - unfold Connection_Emit at 1 2. unfold GetDest in Hto. by rewrite Hto, HR.
  - destruct Hc as [?|[s Hs]]; [done|].
    rewrite (Connection_Emit_spec args c w s Hs). res_step.
    apply IH; try done. apply Exists_cons in Hex as [?|?]; done.
Qed.

(** X12: When an emitter holds two or more records to a receiver, one
    [Disconnect], the receiver's destruction and an [Emit] end in a call
    through a record to the destroyed receiver. *)
Theorem Disconnect_destroy_Emit_dangles w E R l args :
  signals w !! E = Some l →
  live_connectable w R →
  2 ≤ length (records_to R l) →
  targets_live w E →
  senders_live w R →
  ∃ w1 w2, Disconnect E R w = Ok w1 ∧
           Connectable_delete R w1 = Ok w2 ∧
           Emit E args w2 = Fail (Dangling R).
Proof.
  intros HE [s HR] Hk Htl Hsl.
  destruct (Disconnect_loop R l) as [l'|] eqn:Hloop;
    [|apply Disconnect_loop_None in Hloop; rewrite Hloop in Hk; simpl in Hk; lia].
  pose proof Hloop as Hsplit.
  apply Disconnect_loop_Some in Hsplit as (l1 & c & l2 & -> & H1 & Hc & ->).
  eexists. rewrite (Disconnect_spec_found w E R _ _ s HE Hloop HR).
  set (w1 := mkWorld (<[R := s ∖ {[E]}]> (connectables w))
               (<[E := l1 ++ l2]> (signals w)) (calls w)).
  assert (connectables w1 !! R = Some (s ∖ {[E]})) as HR1.
  { simpl. by rewrite lookup_insert_eq. }
  assert (senders_live w1 R) as Hsl1.
  { intros e He. unfold m_senders in He. rewrite HR1 in He. simpl in He.
    unfold live_signal. simpl. apply insert_is_Some_keep. apply Hsl.
    unfold m_senders. rewrite HR. simpl. set_solver. }
  destruct (Connectable_delete_spec w1 R _ HR1 Hsl1) as (w2 & Hrun2 & Hc2 & Hk2 & Hs2).
  exists w2. split; [done|]. split; [done|].
  assert (signals w2 !! E = Some (l1 ++ l2)) as HE2.
  { rewrite Hs2, decide_False by set_solver. simpl. by rewrite lookup_insert_eq. }
  unfold Emit, slots_of. rewrite HE2. res_step.
  apply Emit_loop_dangles.
  - rewrite Hc2. apply lookup_delete_eq.
  - unfold targets_live, m_connected_slots in Htl. rewrite HE in Htl. simpl in Htl.
    apply Forall_app in Htl as [Htl1 Htl2]. apply Forall_cons in Htl2 as [_ Htl2].
    apply Forall_app. split; (eapply Forall_impl; [eassumption|]); intros c' Hc';
      (destruct (decide (GetDest c' = R)); [by left|right]);
      unfold live_connectable; rewrite Hc2, lookup_delete_ne by done;
      simpl; by apply insert_is_Some_keep.
  - unfold records_to in Hk, H1. rewrite filter_app, H1, filter_cons_True in Hk by done.
    simpl in Hk. apply Exists_app. right.
    destruct (records_to_nil_or_Exists R l2) as [Hnil|?]; [|done].
    unfold records_to in Hnil. rewrite Hnil in Hk. simpl in Hk. lia.
Qed.

(** [Connectable::DisconnectAll] over senders one of which is gone, the
    others being live, stops at that one. *)
Lemma DisconnectAll_senders_loop_dangles R E L w :
  signals w !! E = None →
  Forall (fun e => e = E ∨ live_signal w e) L →
  E ∈ L →
  for_each (fun sender => SlotDisconnect sender R) L w = Fail (Dangling E).
Proof.
  intros HE. revert w HE. induction L as [|x L IH]; intros w HE HL Hin.
  { by apply elem_of_nil in Hin. }
  apply Forall_cons in HL as [Hx HL]. rewrite for_each_cons.
  destruct (decide (x = E)) as [->|Hne].
  - unfold SlotDisconnect at 1 2, slots_of. by rewrite HE.
  - destruct Hx as [?|[l Hl]]; [done|].
    rewrite (SlotDisconnect_spec w x R l Hl). res_step.
    apply IH.
    + simpl. by rewrite lookup_insert_ne.
    + eapply Forall_impl; [exact HL|]. intros e [->|He]; [by left|right].
      by apply insert_is_Some_keep.
    + apply elem_of_cons in Hin as [?|?]; [congruence|done].
Qed.

(** X13: A direct [SlotDisconnect] leaves the emitter in the receiver's senders
    with no record to it; the emitter's destructor then does not visit that
    receiver, and the receiver's destructor ends in a call on the destroyed
    emitter. *)
Theorem SlotDisconnect_destroy_both_dangles w E R l :
  signals w !! E = Some l →
  E ∈ m_senders w R →
  targets_live w E →
  senders_live w R →
  ∃ w1 w2, SlotDisconnect E R w = Ok w1 ∧
           Signal_delete E w1 = Ok w2 ∧
           E ∈ m_senders w2 R ∧
           Connectable_delete R w2 = Fail (Dangling E).
Proof.
  intros HE Hin Htl Hsl.
  destruct (senders_lookup w R E Hin) as (s & HR & HEs).
  eexists. rewrite (SlotDisconnect_spec w E R l HE).
  set (w1 := set_slots E (records_not_to R l) w).
  assert (signals w1 !! E = Some (records_not_to R l)) as HE1.
  { simpl. by rewrite lookup_insert_eq. }
  assert (targets_live w1 E) as Htl1.
  { unfold targets_live, m_connected_slots in *. rewrite HE1. rewrite HE in Htl.
    simpl in *. apply Forall_forall. intros c Hc.
    apply list_elem_of_filter in Hc as [_ Hc].
    by apply (proj1 (Forall_forall _ _) Htl). }
  destruct (Signal_delete_spec w1 E _ HE1 Htl1) as (w2 & Hrun2 & Hs2 & Hk2 & Hc2).
  assert (connectables w2 !! R = Some s) as HR2.
  { rewrite Hc2, decide_False; [done|].
    intros Hr. apply list_elem_of_fmap in Hr as (c & Hto & Hc).
    by apply list_elem_of_filter in Hc as [Hne _]. }
  exists w2. split; [done|]. split; [done|]. split.
  { unfold m_senders. by rewrite HR2. }
  unfold Connectable_delete, Connectable_DisconnectAll, senders_of. rewrite HR2. res_step.
  rewrite (DisconnectAll_senders_loop_dangles R E); [done| | |].
  - rewrite Hs2. apply lookup_delete_eq.
  - apply Forall_forall. intros e He. apply sender_order_elem_of in He.
    destruct (decide (e = E)) as [?|Hne]; [by left|right].
    unfold live_signal. rewrite Hs2, lookup_delete_ne by done. simpl.
    apply insert_is_Some_keep. apply Hsl. unfold m_senders. by rewrite HR.
  - by apply sender_order_elem_of.
Qed.

End Destruction.

(** ** Copies of unconnected objects, and the order of destruction *)

Section Order.

Context {Args : Type}.
Implicit Types w : World Args.

(** X14: Copying a receiver no emitter is registered with does what default
    construction does, and so does copying an emitter with no record:
    nothing but the new object changes, and an address in use is refused in
    the same way. *)
Theorem copy_of_unconnected_is_new w :
  (∀ R R2, connectables w !! R = Some ∅ →
           Connectable_copy R2 R w = Connectable_new R2 w) ∧
  (∀ E E2, signals w !! E = Some [] → Signal_copy E2 E w = Signal_new E2 w).
Proof.
  split.
  - intros R R2 HR. unfold Connectable_copy, Connectable_new.
    destruct (connectables w !! R2) eqn:HR2; [done|]. res_step.
    unfold senders_of. simpl. rewrite lookup_insert_ne by congruence.
    rewrite HR. res_step. by rewrite sender_order_empty.
  - intros E E2 HE. unfold Signal_copy, Signal_new.
    destruct (signals w !! E2) eqn:HE2; [done|]. res_step.
    unfold slots_of. simpl. rewrite lookup_insert_ne by congruence.
    by rewrite HE.
Qed.

Lemma records_not_to_comm r r' l :
  records_not_to r (records_not_to r' l) = records_not_to r' (records_not_to r l).
Proof.
  unfold records_not_to. induction l as [|c l IH]; [done|].
  rewrite !filter_cons.
  destruct (decide (GetDest c ≠ r')), (decide (GetDest c ≠ r));
    rewrite ?filter_cons_True, ?filter_cons_False by done; by rewrite ?IH.
Qed.

Lemma Connectable_delete_two w R R' s s' :
  R ≠ R' →
  connectables w !! R = Some s →
  connectables w !! R' = Some s' →
  senders_live w R →
  senders_live w R' →
  ∃ w2, (w1 ← Connectable_delete R w; Connectable_delete R' w1) = Ok w2 ∧
        connectables w2 = delete R' (delete R (connectables w)) ∧
        calls w2 = calls w ∧
        ∀ e, signals w2 !! e =
             (if decide (e ∈ s') then records_not_to R' else id) <$>
             ((if decide (e ∈ s) then records_not_to R else id) <$> signals w !! e).
Proof.
  intros Hne HR HR' Hsl Hsl'.
  destruct (Connectable_delete_spec w R s HR Hsl) as (w1 & Hrun & Hc & Hk & Hs).
  assert (connectables w1 !! R' = Some s') as HR1.
  { rewrite Hc. by rewrite lookup_delete_ne. }
  assert (senders_live w1 R') as Hsl1.
  { intros e He. unfold m_senders in He. rewrite HR1 in He. simpl in He.
    unfold live_signal. rewrite Hs.
    assert (is_Some (signals w !! e)) as Hlive.
    { apply Hsl'. unfold m_senders. by rewrite HR'. }
    case_decide; [by apply fmap_is_Some|done]. }
  destruct (Connectable_delete_spec w1 R' s' HR1 Hsl1) as (w2 & Hrun2 & Hc2 & Hk2 & Hs2).
  exists w2. rewrite Hrun. res_step. split_and!; try done.
  - by rewrite Hc2, Hc.
  - by rewrite Hk2.
  - intros e. rewrite Hs2, Hs.
    destruct (decide (e ∈ s')), (decide (e ∈ s)), (signals w !! e); done.
Qed.

(** X15: Two live receivers can be destroyed in either order: both orders return,
    in the same world. *)
Theorem Connectable_delete_commute w R R' :
  R ≠ R' →
  live_connectable w R →
  live_connectable w R' →
  senders_live w R →
  senders_live w R' →
  ∃ w2, (w1 ← Connectable_delete R w; Connectable_delete R' w1) = Ok w2 ∧
        (w1 ← Connectable_delete R' w; Connectable_delete R w1) = Ok w2.
Proof.
  intros Hne [s HR] [s' HR'] Hsl Hsl'.
  destruct (Connectable_delete_two w R R' s s' Hne HR HR' Hsl Hsl')
    as (w2 & Hrun & Hc & Hk & Hs).
  destruct (Connectable_delete_two w R' R s' s (not_eq_sym Hne) HR' HR Hsl' Hsl)
    as (w2' & Hrun' & Hc' & Hk' & Hs').
  exists w2. split; [done|]. rewrite Hrun'. f_equal.
  apply world_ext.
  - rewrite Hc, Hc'. apply delete_delete.
  - apply map_eq. intros e. rewrite Hs, Hs'.
    destruct (decide (e ∈ s')), (decide (e ∈ s)), (signals w !! e); simpl; try done.
    f_equal. apply records_not_to_comm.
  - by rewrite Hk, Hk'.
Qed.

Lemma Signal_delete_two w E E' l l' :
  E ≠ E' →
  signals w !! E = Some l →
  signals w !! E' = Some l' →
  targets_live w E →
  targets_live w E' →
  ∃ w2, (w1 ← Signal_delete E w; Signal_delete E' w1) = Ok w2 ∧
        signals w2 = delete E' (delete E (signals w)) ∧
        calls w2 = calls w ∧
        ∀ r, connectables w2 !! r =
             (fun s => if decide (r ∈ map GetDest l') then s ∖ {[E']} else s) <$>
             ((fun s => if decide (r ∈ map GetDest l) then s ∖ {[E]} else s) <$>
              connectables w !! r).
Proof.
  intros Hne HE HE' Htl Htl'.
  destruct (Signal_delete_spec w E l HE Htl) as (w1 & Hrun & Hs & Hk & Hc).
  assert (signals w1 !! E' = Some l') as HE1.
  { rewrite Hs. by rewrite lookup_delete_ne. }
  assert (targets_live w1 E') as Htl1.
  { unfold targets_live, m_connected_slots in *. rewrite HE1. rewrite HE' in Htl'.
    simpl in *. eapply Forall_impl; [exact Htl'|]. intros c Hc'.
    unfold live_connectable. rewrite Hc. case_decide; [by apply fmap_is_Some|done]. }
  destruct (Signal_delete_spec w1 E' l' HE1 Htl1) as (w2 & Hrun2 & Hs2 & Hk2 & Hc2).
  exists w2. rewrite Hrun. res_step. split_and!; try done.
  - by rewrite Hs2, Hs.
  - by rewrite Hk2.
  - intros r. rewrite Hc2, Hc.
    destruct (decide (r ∈ map GetDest l')), (decide (r ∈ map GetDest l)),
      (connectables w !! r); done.
Qed.

(** X16: Two live emitters can be destroyed in either order: both orders return,
    in the same world. *)
Theorem Signal_delete_commute w E E' :
  E ≠ E' →
  live_signal w E →
  live_signal w E' →
  targets_live w E →
  targets_live w E' →
  ∃ w2, (w1 ← Signal_delete E w; Signal_delete E' w1) = Ok w2 ∧
        (w1 ← Signal_delete E' w; Signal_delete E w1) = Ok w2.
Proof.
  intros Hne [l HE] [l' HE'] Htl Htl'.
  destruct (Signal_delete_two w E E' l l' Hne HE HE' Htl Htl')
    as (w2 & Hrun & Hs & Hk & Hc).
  destruct (Signal_delete_two w E' E l' l (not_eq_sym Hne) HE' HE Htl' Htl)
    as (w2' & Hrun' & Hs' & Hk' & Hc').
  exists w2. split; [done|]. rewrite Hrun'. f_equal.
  apply world_ext.
  - apply map_eq. intros r. rewrite Hc, Hc'.
    destruct (decide (r ∈ map GetDest l')), (decide (r ∈ map GetDest l)),
      (connectables w !! r); simpl; try done.
    f_equal. set_solver.
  - rewrite Hs, Hs'. apply delete_delete.
  - by rewrite Hk, Hk'.
Qed.

End Order.

(** ** The further theorems at work on [demo] *)

Lemma consistent_demo : consistent demo.
Proof. split; [apply bookkeeping_check|apply registered_check]; compute_done. Qed.

Lemma SignalConnect_SignalDisconnect_roundtrip_witness :
  SignalDisconnect 10 3 demo = Ok demo ∧
  (w1 ← SignalConnect 10 3 demo; SignalDisconnect 10 3 w1) = Ok demo ∧
  ∃ w2, (w1 ← SignalConnect 10 1 demo; SignalDisconnect 10 1 w1) = Ok w2 ∧
        m_senders w2 10 = demo_senders ∖ {[ 1%positive ]}.
Proof.
  destruct (SignalConnect_SignalDisconnect_roundtrip demo 10 3 demo_senders)
    as (Habsent & Hundo & _); [reflexivity|].
  destruct (SignalConnect_SignalDisconnect_roundtrip demo 10 1 demo_senders)
    as (_ & _ & Hheld); [reflexivity|].
  split_and!.
  - apply Habsent. compute_done.
  - apply Hundo. compute_done.
  - apply Hheld. compute_done.
Defined.


Lemma Connect_Disconnect_erases_oldest_witness :
  ∃ w2, (w1 ← Connect 1 10 4 demo; Disconnect 1 10 w1) = Ok w2 ∧
        signals w2 !! 1%positive
        = Some ([ mkConnection 20 5 ] ++ [ mkConnection 20 6; mkConnection 10 8 ]
                ++ [ mkConnection 10 4 ]) ∧
        m_senders w2 10 = demo_senders ∖ {[ 1%positive ]}.
Proof.
  apply (Connect_Disconnect_erases_oldest demo 1 10 4 [ mkConnection 20 5 ]
           (mkConnection 10 7) [ mkConnection 20 6; mkConnection 10 8 ] demo_senders);
    reflexivity.
Defined.

Lemma SlotDuplicate_diverges_iff_witness :
  SlotDuplicate 2 20 20 demo = Ok demo ∧ SlotDuplicate 1 10 10 demo = Fail Diverges.
Proof.
  split.
  - apply (SlotDuplicate_diverges_iff demo 2 20 [ mkConnection 10 9 ]); reflexivity.
  - apply (SlotDuplicate_diverges_iff demo 1 10 demo_slots); [reflexivity|].
    vm_compute. discriminate.
Defined.

Lemma Connectable_DisconnectAll_twice_witness :
  ∃ w1, Connectable_DisconnectAll 10 demo = Ok w1 ∧
        connectables w1 !! 10%positive = Some ∅ ∧
        records_to 10 (m_connected_slots w1 1) = [] ∧
        Connectable_DisconnectAll 10 w1 = Ok w1.
Proof.
  destruct (Connectable_DisconnectAll_twice demo 10 demo_senders)
    as (w1 & Hrun & Hempty & Hnone & Hagain).
  - reflexivity.
  - compute_done.
  - exists w1. split_and!; [done|done| |done]. apply Hnone. compute_done.
Defined.

Lemma Signal_DisconnectAll_twice_witness :
  ∃ w1, Signal_DisconnectAll 1 demo = Ok w1 ∧
        signals w1 !! 1%positive = Some [] ∧
        m_senders w1 10 = m_senders demo 10 ∖ {[ 1%positive ]} ∧
        connectables w1 !! 30%positive = connectables demo !! 30%positive ∧
        Emit 1 0 w1 = Ok w1 ∧
        Signal_DisconnectAll 1 w1 = Ok w1.
Proof.
  destruct (Signal_DisconnectAll_twice demo 1 demo_slots 0)
    as (w1 & Hrun & Hempty & Htargets & Hothers & Hemit & Hagain).
  - reflexivity.
  - compute_done.
  - exists w1. split_and!; [done|done| | |done|done].
    + apply Htargets. compute_done.
    + apply Hothers. compute_done.
Defined.

Lemma Signal_copy_delete_roundtrip_witness :
  (w1 ← Signal_copy 4 1 demo; Signal_delete 4 w1) = Ok demo.
Proof.
  apply (Signal_copy_delete_roundtrip demo 1 4 demo_slots).
  - reflexivity.
  - reflexivity.
  - compute_done.
  - compute_done.
Defined.

Lemma Connectable_copy_delete_roundtrip_witness :
  (w1 ← Connectable_copy 11 10 demo; Connectable_delete 11 w1) = Ok demo.
Proof.
  apply (Connectable_copy_delete_roundtrip demo 10 11 demo_senders).
  - reflexivity.
  - reflexivity.
  - compute_done.
  - compute_done.
Defined.

Lemma permitted_program_runs_witness :
  ∃ w1, for_each exec demo_program demo = Ok w1 ∧ consistent w1.
Proof.
  apply (permitted_program_runs demo demo_program).
  - apply consistent_demo.
  - apply permitted_allb_sound. vm_compute. reflexivity.
Defined.

Lemma destroyed_receiver_never_called_witness :
  ∃ w1, Connectable_delete 10 demo = Ok w1 ∧
        connectables w1 !! 10%positive = None ∧
        records_to 10 [ mkConnection 20 5; mkConnection 20 6 ] = [] ∧
        Forall (fun c => live_connectable w1 (GetDest c))
          [ mkConnection 20 5; mkConnection 20 6 ] ∧
        Emit 1 0 w1
        = Ok (mkWorld (connectables w1) (signals w1)
                (calls w1 ++ invocations 0 [ mkConnection 20 5; mkConnection 20 6 ])).
Proof.
  destruct (destroyed_receiver_never_called demo 10) as (w1 & Hrun & Hgone & Hall).
  - apply consistent_demo.
  - compute_done.
  - exists w1. split; [done|]. split; [done|].
    apply (Hall 1%positive). vm_compute in Hrun. injection Hrun as <-. reflexivity.
Defined.

Lemma destroyed_signal_never_notified_witness :
  ∃ w1 w2, Signal_delete 1 demo = Ok w1 ∧
           signals w1 !! 1%positive = None ∧
           (1%positive ∉ m_senders w1 10) ∧
           Connectable_delete 10 w1 = Ok w2.
Proof.
  destruct (destroyed_signal_never_notified demo 1) as (w1 & Hrun & Hgone & Hnone & Hall).
  - apply consistent_demo.
  - compute_done.
  - destruct (Hall 10%positive) as [w2 Hrun2].
    { vm_compute in Hrun. injection Hrun as <-. compute_done. }
    exists w1, w2. split_and!; [done|done|apply Hnone|done].
Defined.

Lemma Disconnect_destroy_Emit_dangles_witness :
  ∃ w1 w2, Disconnect 1 10 demo = Ok w1 ∧
           Connectable_delete 10 w1 = Ok w2 ∧
           Emit 1 0 w2 = Fail (Dangling 10).
Proof.
  apply (Disconnect_destroy_Emit_dangles demo 1 10 demo_slots 0).
  - reflexivity.
  - compute_done.
  - vm_compute. lia.
  - compute_done.
  - compute_done.
Defined.

Lemma SlotDisconnect_destroy_both_dangles_witness :
  ∃ w1 w2, SlotDisconnect 1 10 demo = Ok w1 ∧
           Signal_delete 1 w1 = Ok w2 ∧
           1%positive ∈ m_senders w2 10 ∧
           Connectable_delete 10 w2 = Fail (Dangling 1).
Proof.
  apply (SlotDisconnect_destroy_both_dangles demo 1 10 demo_slots).
  - reflexivity.
  - compute_done.
  - compute_done.
  - compute_done.
Defined.

Lemma copy_of_unconnected_is_new_witness :
  Connectable_copy 11 10 disconnected_once = Connectable_new 11 disconnected_once ∧
  Signal_copy 4 3 demo = Signal_new 4 demo.
Proof.
  split.
  - apply (copy_of_unconnected_is_new disconnected_once). reflexivity.
  - apply (copy_of_unconnected_is_new demo). reflexivity.
Defined.

Lemma Connectable_delete_commute_witness :
  ∃ w2, (w1 ← Connectable_delete 10 demo; Connectable_delete 20 w1) = Ok w2 ∧
        (w1 ← Connectable_delete 20 demo; Connectable_delete 10 w1) = Ok w2.
Proof.
  apply (Connectable_delete_commute demo 10 20).
  - discriminate.
  - compute_done.
  - compute_done.
  - compute_done.
  - compute_done.
Defined.

Lemma Signal_delete_commute_witness :
  ∃ w2, (w1 ← Signal_delete 1 demo; Signal_delete 2 w1) = Ok w2 ∧
        (w1 ← Signal_delete 2 demo; Signal_delete 1 w1) = Ok w2.
Proof.
  apply (Signal_delete_commute demo 1 2).
  - discriminate.
  - compute_done.
  - compute_done.
  - compute_done.
  - compute_done.
Defined.
